(** * ember-states: the [State] node of a hierarchical state machine

    A shallow embedding of [addon/state.js].  State instances live in a
    store addressed by handle; every method of the class is a function over
    that store.  JavaScript values are a small tagged union with the
    language's truthiness; plain objects used as dictionaries are ordered
    association lists (property order is the declaration order) or finite
    maps (caches, event transitions). *)

From stdpp Require Import base option list strings pretty gmap.
From Stdlib Require Import ZArith.

Open Scope string_scope.
Open Scope list_scope.

#[local] Set Warnings "-register-all".

(** ** JavaScript values *)

(** Handle of a [State] instance in the store. *)
Abbreviation ref := nat (only parsing).

(** A state manager: an object with a [transitionTo] method.  Its
    [constructor] is the identity of its class, [mgr_id] the identity of the
    instance. *)
Record manager := Manager { mgr_id : nat; constructor : nat }.

Inductive value :=
  | VUndefined
  | VNull
  | VBool (b : bool)
  | VNum (n : Z)
  | VStr (s : string)
  | VArray (xs : list value)
  | VObj (fields : list (string * value))      (* plain object literal *)
  | VFunc (f : nat)                            (* an ordinary function *)
  | VTransitionFn (target : string)            (* made by State.transitionTo *)
  | VEvent (contexts : option (list value))    (* instance of Ember.$.Event,
                                                  with its own [contexts]
                                                  array when it has one *)
  | VManager (m : manager)
  | VState (r : ref)                           (* instance of State *)
  | VClass (states : value) (decl : list (string * value)).
                                               (* subclass of State: its
                                                  declared [states] property
                                                  and its other properties *)

(** [if (v)] *)
Definition truthy (v : value) : bool :=
  match v with
  | VUndefined | VNull => false
  | VBool b => b
  | VNum n => negb (n =? 0)%Z
  | VStr s => negb (String.eqb s "")
  | _ => true
  end.

(** A plain object as an ordered list of own properties. *)
Abbreviation jsobj := (list (string * value)).

(** [o[k]] *)
Fixpoint obj_get (k : string) (o : jsobj) : value :=
  match o with
  | [] => VUndefined
  | (k', v) :: o' => if String.eqb k k' then v else obj_get k o'
  end.

(** [o[k] = v]: an existing property keeps its place, a new one goes last. *)
Fixpoint obj_set (k : string) (v : value) (o : jsobj) : jsobj :=
  match o with
  | [] => [(k, v)]
  | (k', v') :: o' =>
      if String.eqb k k' then (k, v) :: o' else (k', v') :: obj_set k v o'
  end.

(** [m[k]] on a dictionary. *)
Definition dict_get {V} (absent : V) (k : string) (m : gmap string V) : V :=
  default absent (m !! k).

(** ** State instances *)

Record StateObj := mkState {
  parentState : option ref;          (* null, or the parent state *)
  name : option string;              (* null, or the name *)
  container : value;
  props : jsobj;                     (* the declared properties *)
  states : value;
  childStates : list ref;
  eventTransitions : gmap string value;
  pathsCaches : gmap string (gmap string value);
  listeners : list (string * nat);   (* Ember.Evented: event name, listener *)
  path_cache : option (option string);  (* memo of the computed [path] *)
  isLeaf_cache : option bool            (* memo of the computed [isLeaf] *)
}.

Abbreviation heap := (list StateObj).

Definition set_parentState (p : option ref) (o : StateObj) : StateObj :=
  mkState p (name o) (container o) (props o) (states o) (childStates o)
          (eventTransitions o) (pathsCaches o) (listeners o)
          (path_cache o) (isLeaf_cache o).

Definition set_name (n : option string) (o : StateObj) : StateObj :=
  mkState (parentState o) n (container o) (props o) (states o) (childStates o)
          (eventTransitions o) (pathsCaches o) (listeners o)
          (path_cache o) (isLeaf_cache o).

Definition set_container (c : value) (o : StateObj) : StateObj :=
  mkState (parentState o) (name o) c (props o) (states o) (childStates o)
          (eventTransitions o) (pathsCaches o) (listeners o)
          (path_cache o) (isLeaf_cache o).

Definition set_states (s : value) (o : StateObj) : StateObj :=
  mkState (parentState o) (name o) (container o) (props o) s (childStates o)
          (eventTransitions o) (pathsCaches o) (listeners o)
          (path_cache o) (isLeaf_cache o).

Definition set_childStates (cs : list ref) (o : StateObj) : StateObj :=
  mkState (parentState o) (name o) (container o) (props o) (states o) cs
          (eventTransitions o) (pathsCaches o) (listeners o)
          (path_cache o) (isLeaf_cache o).

Definition set_eventTransitions (e : gmap string value) (o : StateObj)
  : StateObj :=
  mkState (parentState o) (name o) (container o) (props o) (states o)
          (childStates o) e (pathsCaches o) (listeners o)
          (path_cache o) (isLeaf_cache o).

Definition set_pathsCaches (c : gmap string (gmap string value))
  (o : StateObj) : StateObj :=
  mkState (parentState o) (name o) (container o) (props o) (states o)
          (childStates o) (eventTransitions o) c (listeners o)
          (path_cache o) (isLeaf_cache o).

Definition set_path_cache (c : option (option string)) (o : StateObj)
  : StateObj :=
  mkState (parentState o) (name o) (container o) (props o) (states o)
          (childStates o) (eventTransitions o) (pathsCaches o) (listeners o)
          c (isLeaf_cache o).

Definition set_isLeaf_cache (c : option bool) (o : StateObj) : StateObj :=
  mkState (parentState o) (name o) (container o) (props o) (states o)
          (childStates o) (eventTransitions o) (pathsCaches o) (listeners o)
          (path_cache o) c.

Definition set_listeners (ls : list (string * nat)) (o : StateObj) : StateObj :=
  mkState (parentState o) (name o) (container o) (props o) (states o)
          (childStates o) (eventTransitions o) (pathsCaches o) ls
          (path_cache o) (isLeaf_cache o).

(** [this.container], undefined on a missing object. *)
Definition container_of (h : heap) (r : ref) : value :=
  from_option container VUndefined (h !! r).

(** ** State.transitionTo: the marker *)

(** [State.transitionTo(target)] returns a function that carries
    [transitionTarget = target]. *)
Definition State_transitionTo (target : string) : value := VTransitionFn target.

(** [value.transitionTarget] for a truthy [value]. *)
Definition transitionTarget (h : heap) (v : value) : value :=
  match v with
  | VTransitionFn target => VStr target
  | VObj fields => obj_get "transitionTarget" fields
  | VState r => from_option (fun o => obj_get "transitionTarget" (props o))
                            VUndefined (h !! r)
  | _ => VUndefined
  end.

(** ** init and setupChild *)

(** The three assignments of setupChild on an instance of State:
    [parentState], [childStates.pushObject], [states[name]]. *)
Definition attach (this : ref) (sts : jsobj) (nm : string) (r : ref) (h : heap)
  : value * jsobj * heap :=
  let h1 := alter (set_parentState (Some this)) r h in
  let h2 := alter (fun o => set_childStates (childStates o ++ [r]) o) this h1 in
  (VState r, obj_set nm (VState r) sts, h2).

(** [set(value, 'name', name); instance.container = this.container] *)
Definition adopt (this : ref) (nm : string) (r : ref) (h : heap) : heap :=
  let h1 := alter (set_name (Some nm)) r h in
  alter (set_container (container_of h1 this)) r h1.

(** The object [create] hands to [init], after the first two lines of
    [init]: [childStates] is a fresh array and [eventTransitions] is the
    declared one or an empty object. *)
Definition blank (sts : value) (decl : jsobj) (nm : option string) (c : value)
  : StateObj :=
  mkState None nm c decl sts []
          (match obj_get "eventTransitions" decl with
           | VObj fields => list_to_map fields
           | _ => ∅
           end)
          ∅ [] None None.

(** [this.eventTransitions[name] = transitionTarget] *)
Definition register (this : ref) (nm : string) (t : value) (h : heap) : heap :=
  alter (fun o => set_eventTransitions (<[nm := t]> (eventTransitions o)) o)
        this h.

(** One iteration of [for (name in this)] in [init]. *)
Definition scan_step (setup : value -> ref -> jsobj -> string -> heap
                              -> value * jsobj * heap)
  (this : ref) (acc : jsobj * heap) (kv : string * value) : jsobj * heap :=
  let '(sts, h) := acc in
  let '(nm, v) := kv in
  if String.eqb nm "constructor" then (sts, h)
  else if truthy v then
    let t := transitionTarget h v in
    let h1 := if truthy t then register this nm t h else h in
    let '(_, sts', h2) := setup v this sts nm h1 in
    (sts', h2)
  else (sts, h).

(** One iteration of [for (name in states)] in [init]. *)
Definition states_step (setup : value -> ref -> jsobj -> string -> heap
                                -> value * jsobj * heap)
  (this : ref) (acc : jsobj * heap) (kv : string * value) : jsobj * heap :=
  let '(sts, h) := acc in
  let '(nm, v) := kv in
  let '(_, sts', h') := setup v this sts nm h in
  (sts', h').

(** [init], given setupChild: the store already holds the blank object
    [this].  An explicit [states] is an object literal; setupChild replaces
    a property of it in place, so each property is visited with its
    declared value.  Without [states] the loop visits the declared
    properties [decl] in order; what the framework and the first lines of
    [init] put on the instance is no State, no class and carries no marker,
    so the loop body would skip it. *)
Definition init_with (setup : value -> ref -> jsobj -> string -> heap
                              -> value * jsobj * heap)
  (this : ref) (sts : value) (decl : jsobj) (h : heap) : heap :=
  let '(sts', h') :=
    if truthy sts then
      match sts with
      | VObj fields =>
          let '(s, h1) := fold_left (states_step setup this) fields (fields, h)
          in (VObj s, h1)
      | _ => (sts, h)
      end
    else
      let '(s, h1) := fold_left (scan_step setup this) decl ([], h) in
      (VObj s, h1)
  in
  alter (fun o => set_pathsCaches ∅ (set_states sts' o)) this h'.

(** [setupChild(states, name, value)] on the state [this]. *)
Fixpoint setupChild (v : value) (this : ref) (sts : jsobj) (nm : string)
  (h : heap) {struct v} : value * jsobj * heap :=
  if negb (truthy v) then (VBool false, sts, h)
  else
    match v with
    | VState r => attach this sts nm r (adopt this nm r h)
    | VClass csts decl =>
        let r := List.length h in
        let h1 := h ++ [blank csts decl (Some nm) (container_of h this)] in
        attach this sts nm r (init_with setupChild r csts decl h1)
    | _ => (VUndefined, sts, h)
    end.

(** [this.init()] as run by [State.create(declaration)]: the declaration's
    [states] property is [sts], its other properties are [decl]. *)
Definition init (this : ref) (sts : value) (decl : jsobj) (h : heap) : heap :=
  init_with setupChild this sts decl h.

(** [State.create(declaration)]: a new instance, then [init]. *)
Definition State_create (sts : value) (decl : jsobj) (h : heap) : ref * heap :=
  let this := List.length h in
  let nm := match obj_get "name" decl with VStr s => Some s | _ => None end in
  (this, init this sts decl (h ++ [blank sts decl nm (obj_get "container" decl)])).

(** The property scan of [init], as a loop over the declaration. *)
Definition scan (this : ref) (decl : jsobj) (acc : jsobj * heap)
  : jsobj * heap :=
  fold_left (scan_step setupChild this) decl acc.

(** ** Computed properties

    [path] and [isLeaf] are declared with [Ember.computed(f)], without
    dependent keys: the first read of the property runs [f] and keeps the
    result on the instance, later reads return what was kept. *)

(** [name] as the right operand of [+] on strings. *)
Definition name_string (n : option string) : string := default "null" n.

(** A path is null (or undefined) or a string; only a nonempty string is
    truthy. *)
Definition truthy_path (p : option string) : bool :=
  match p with
  | Some s => negb (String.eqb s "")
  | None => false
  end.

(** The body of the computed [path], from [parentPath] and [name]. *)
Definition join_path (parentPath : option string) (n : option string)
  : option string :=
  if truthy_path parentPath
  then Some (default "" parentPath +:+ "." +:+ name_string n)
  else n.

(** [get(this, 'path')].  The read of [parentState.path] is a read of the
    parent's computed property; [fuel] bounds the length of the parent
    chain that is followed, and [None] is returned when it does not
    suffice or when a handle is dangling. *)
Fixpoint get_path (fuel : nat) (h : heap) (this : ref)
  : option (option string * heap) :=
  match fuel with
  | O => None
  | S fuel' =>
      o ← h !! this;
      match path_cache o with
      | Some p => Some (p, h)
      | None =>
          '(parentPath, h1) ← match parentState o with
                               | None => Some (None, h)
                               | Some p => get_path fuel' h p
                               end;
          o1 ← h1 !! this;
          let path := join_path parentPath (name o1) in
          Some (path, alter (set_path_cache (Some path)) this h1)
      end
  end.

(** [get(this, 'isLeaf')] *)
Definition get_isLeaf (h : heap) (this : ref) : option (bool * heap) :=
  o ← h !! this;
  match isLeaf_cache o with
  | Some b => Some (b, h)
  | None =>
      let b := negb (truthy (VNum (Z.of_nat (List.length (childStates o))))) in
      Some (b, alter (set_isLeaf_cache (Some b)) this h)
  end.

(** ** lookupEventTransition *)

(** The loop [while (state && !path)]: [state] is null or a state. *)
Fixpoint lookup_loop (fuel : nat) (h : heap) (nm : string)
  (state : option ref) (path : value) : option value :=
  match state with
  | None => Some path
  | Some r =>
      if truthy path then Some path
      else
        match fuel with
        | O => None
        | S fuel' =>
            o ← h !! r;
            lookup_loop fuel' h nm (parentState o)
                        (dict_get VUndefined nm (eventTransitions o))
        end
  end.

Definition lookupEventTransition (fuel : nat) (h : heap) (this : ref)
  (nm : string) : option value :=
  lookup_loop fuel h nm (Some this) VUndefined.

(** ** The paths caches *)

Section PathsCache.

(** [Ember.guidFor]: the string the framework assigns to an object, here
    to a manager's constructor. *)
Variable guidFor : nat -> string.

Definition setPathsCache (this : ref) (stateManager : manager)
  (path : string) (transitions : value) (h : heap) : heap :=
  alter (fun o =>
           let stateManagerTypeGuid := guidFor (constructor stateManager) in
           let pathsCacheForManager :=
             dict_get ∅ stateManagerTypeGuid (pathsCaches o) in
           set_pathsCaches
             (<[stateManagerTypeGuid :=
                  <[path := transitions]> pathsCacheForManager]>
                (pathsCaches o)) o)
        this h.

(** The result and the store afterwards. *)
Definition getPathsCache (this : ref) (stateManager : manager)
  (path : string) (h : heap) : option (value * heap) :=
  o ← h !! this;
  let stateManagerTypeGuid := guidFor (constructor stateManager) in
  let pathsCacheForManager :=
    dict_get ∅ stateManagerTypeGuid (pathsCaches o) in
  Some (dict_get VUndefined path pathsCacheForManager, h).

End PathsCache.

(** ** Calls that leave the class

    A call of a method, of a listener or of the manager's [transitionTo] is
    recorded with its receiver and arguments; what the callee does is its
    own affair, and it is taken to return. *)

Inductive call :=
  | CallMethod (this : ref) (f : nat) (args : list value)
  | CallListener (this : ref) (listener : nat) (args : list value)
  | CallTransitionTo (stateManager : manager) (args : list value).

Inductive completion (A : Type) :=
  | Returns (a : A)
  | Throws (error : string).
Arguments Returns {A} a.
Arguments Throws {A} error.

(** A computation: the calls it made, in order, and how it ended. *)
Definition run (A : Type) : Type := list call * completion A.

Definition emit (c : call) : run unit := ([c], Returns tt).

Definition throw {A} (e : string) : run A := ([], Throws e).

#[export] Instance run_ret : MRet run := fun A a => ([], Returns a).

#[export] Instance run_bind : MBind run := fun A B k m =>
  match m with
  | (cs, Returns a) => let '(cs', r) := k a in (cs ++ cs', r)
  | (cs, Throws e) => (cs, Throws e)
  end.

(** ** The function made by State.transitionTo *)

(** [hasEvent] says whether [Ember.$ && Ember.$.Event] is defined. *)
Definition transitionFunction (hasEvent : bool) (target : string)
  (arguments : list value) : run value :=
  let stateManager := nth 0 arguments VUndefined in
  let contextOrEvent := nth 1 arguments VUndefined in
  let contexts :=
    match contextOrEvent with
    | VEvent own =>
        if hasEvent then
          match own with
          | Some contexts => contexts     (* contexts.slice() *)
          | None => []
          end
        else tail arguments
    | _ => tail arguments                 (* [].slice.call(arguments, 1) *)
    end in
  let contexts := VStr target :: contexts in
  match stateManager with
  | VManager m => emit (CallTransitionTo m contexts);; mret VUndefined
  | _ => throw "TypeError"
  end.

(** [f.apply(this, args)] *)
Definition apply (hasEvent : bool) (f : value) (this : ref)
  (args : list value) : run value :=
  match f with
  | VFunc g => emit (CallMethod this g args);; mret VUndefined
  | VTransitionFn target => transitionFunction hasEvent target args
  | _ => throw "TypeError"
  end.

(** ** trigger *)

(** Modelled from the spec: the [trigger] of [Ember.Evented], the mixin that
    [this._super] reaches in [trigger] and that is not part of this source.
    It is the generic event-notification mechanism: every listener
    registered for the event is called with the arguments, in the order of
    registration. *)
Fixpoint Evented_trigger (this : ref) (ls : list (string * nat)) (nm : string)
  (args : list value) : run unit :=
  match ls with
  | [] => mret tt
  | (e, l) :: ls' =>
      (if String.eqb e nm then emit (CallListener this l args) else mret tt);;
      Evented_trigger this ls' nm args
  end.

(** Modelled from the spec: the [on] of [Ember.Evented], which registers
    one more listener for the event. *)
Definition Evented_on (this : ref) (nm : string) (listener : nat) (h : heap)
  : heap :=
  alter (fun o => set_listeners (listeners o ++ [(nm, listener)]) o) this h.

(** [trigger(name, ...args)] on the state [this] of the store. *)
Definition trigger (hasEvent : bool) (h : heap) (this : ref) (nm : string)
  (args : list value) : run unit :=
  match h !! this with
  | None => throw "TypeError"
  | Some o =>
      (if truthy (obj_get nm (props o))
       then apply hasEvent (obj_get nm (props o)) this args;; mret tt
       else mret tt);;
      Evented_trigger this (listeners o) nm args
  end.

(** ** Vocabulary of the statements *)

(** [value instanceof State] *)
Definition instanceof_State (v : value) : bool :=
  match v with VState _ => true | _ => false end.

(** [State.detect(value)] *)
Definition State_detect (v : value) : bool :=
  match v with VClass _ _ => true | _ => false end.

(** The listeners registered for an event, in the order of registration. *)
Definition listeners_for (nm : string) (ls : list (string * nat)) : list nat :=
  (filter (fun el => el.1 = nm) ls).*2.

(** The chain [n, n.parentState, n.parentState.parentState, ...] up to a
    state without parent. *)
Inductive ancestry (h : heap) : ref -> list ref -> Prop :=
  | ancestry_root n o :
      h !! n = Some o -> parentState o = None -> ancestry h n [n]
  | ancestry_parent n o p l :
      h !! n = Some o -> parentState o = Some p -> ancestry h p l ->
      ancestry h n (n :: l).

(** [state.eventTransitions[name]] *)
Definition entry (h : heap) (nm : string) (r : ref) : value :=
  from_option (fun o => dict_get VUndefined nm (eventTransitions o))
              VUndefined (h !! r).

(** What the loop of lookupEventTransition returns on a chain, from the
    value [path] it holds when it reaches the chain. *)
Fixpoint resolve (h : heap) (nm : string) (chain : list ref) (path : value)
  : value :=
  match chain with
  | [] => path
  | r :: chain' =>
      if truthy path then path else resolve h nm chain' (entry h nm r)
  end.

(** The path spelled by the names of a chain, the state itself first and
    the root last. *)
Fixpoint path_of_names (names : list (option string)) : option string :=
  match names with
  | [] => None
  | n :: ancestors => join_path (path_of_names ancestors) n
  end.

Definition name_of (h : heap) (r : ref) : option string :=
  o ← h !! r; name o.

(** On every state of the chain no [path] has been read yet, or the one
    that is kept was computed on this chain. *)
Fixpoint memos_agree (h : heap) (chain : list ref) : Prop :=
  match chain with
  | [] => True
  | n :: ancestors =>
      (exists o, h !! n = Some o
                 /\ (path_cache o = None
                     \/ path_cache o
                        = Some (path_of_names (name_of h <$> n :: ancestors))))
      /\ memos_agree h ancestors
  end.

(** A state whose [parentState] designates [p] is among the [childStates]
    of [p]. *)
Definition parent_owns (h : heap) : Prop :=
  forall c oc p, h !! c = Some oc -> parentState oc = Some p ->
    exists op, h !! p = Some op /\ c ∈ childStates op.

(** The states whose [childStates] collection holds [c]. *)
Definition owners (h : heap) (c : ref) : list ref :=
  filter (fun p => c ∈ from_option childStates [] (h !! p))
         (seq 0 (List.length h)).

(** What setupChild and the [init] of a new state leave alone on the states
    that exist already. *)
Record untouched (o o' : StateObj) : Prop := {
  untouched_props : props o' = props o;
  untouched_eventTransitions : eventTransitions o' = eventTransitions o;
  untouched_pathsCaches : pathsCaches o' = pathsCaches o;
  untouched_listeners : listeners o' = listeners o;
  untouched_path_cache : path_cache o' = path_cache o;
  untouched_isLeaf_cache : isLeaf_cache o' = isLeaf_cache o
}.

Definition frame (h h' : heap) : Prop :=
  forall r o, h !! r = Some o -> exists o', h' !! r = Some o' /\ untouched o o'.

(** setupChild on [v] keeps the property [P] of stores and does not shrink
    the store, when called on a state of a store of at least [lo] states. *)
Definition preserved_by (P : heap -> Prop) (lo : nat) (v : value) : Prop :=
  forall this sts nm (h : heap),
    this < List.length h -> lo <= List.length h -> P h ->
    P (setupChild v this sts nm h).2
    /\ List.length h <= List.length (setupChild v this sts nm h).2.

(** A run of [setPathsCache] calls on one state. *)
Definition setPathsCache_all (guidFor : nat -> string) (this : ref)
  (ops : list (manager * string * value)) (h : heap) : heap :=
  fold_left (fun h op => setPathsCache guidFor this op.1.1 op.1.2 op.2 h) ops h.

(** A value whose State instance, if it is one, is in the store. *)
Definition value_in (h : heap) (v : value) : Prop :=
  match v with
  | VState r => r < List.length h
  | _ => True
  end.

(** The last two assignments of [init]. *)
Definition finish (this : ref) (acc : jsobj * heap) : heap :=
  alter (fun o => set_pathsCaches ∅ (set_states (VObj acc.1) o)) this acc.2.

(** ** Sample data *)

(** A guid assignment in the framework's style: a prefix and a number. *)
Definition ember_guid (c : nat) : string := "ember" +:+ pretty c.

(** [State.create({})] in the empty store. *)
Definition lone_state : heap := (State_create VUndefined [] []).2.

(** The object of [lone_state]. *)
Definition lone_object : StateObj :=
  set_pathsCaches ∅ (set_states (VObj []) (blank VUndefined [] None VUndefined)).

(** [State.create({enter: f1})], then two listeners on [enter] and one on
    [exit]. *)
Definition listening_state : heap :=
  Evented_on 0 "enter" 12
    (Evented_on 0 "exit" 11
       (Evented_on 0 "enter" 10
          (State_create VUndefined [("enter", VFunc 1)] []).2)).

Definition a_manager : manager := Manager 1 7.

(** [root = State.create({a: State.create({b: State.create({n:
    State.create({go: State.transitionTo("x")})})})})]: the states are
    created innermost first, so [n] is 0, [b] is 1, [a] is 2 and the
    unnamed root is 3. *)
Definition nested_tree : heap :=
  let '(n, h) := State_create VUndefined [("go", State_transitionTo "x")] [] in
  let '(b, h) := State_create VUndefined [("n", VState n)] h in
  let '(a, h) := State_create VUndefined [("b", VState b)] h in
  (State_create VUndefined [("a", VState a)] h).2.

(** [State.create({c: State.create({eventTransitions: {go: ""}}),
    eventTransitions: {go: "x"}})]: the child is 0, the parent 1. *)
Definition shadowing_tree : heap :=
  let '(c, h) :=
    State_create VUndefined [("eventTransitions", VObj [("go", VStr "")])] [] in
  (State_create VUndefined
     [("c", VState c); ("eventTransitions", VObj [("go", VStr "x")])] h).2.

(** [s = State.create({}); State.create({x: s}); State.create({y: s})]:
    the shared instance is 0, the two parents are 1 and 2. *)
Definition twice_attached : heap :=
  let '(s, h) := State_create VUndefined [] [] in
  let '(_, h) := State_create VUndefined [("x", VState s)] h in
  (State_create VUndefined [("y", VState s)] h).2.

(** [lone_state] after a read of [isLeaf] and then the attachment of a
    child created from the class [State] under the name [c]. *)
Definition leaf_then_child : heap :=
  match get_isLeaf lone_state 0 with
  | Some (_, h) => (setupChild (VClass VUndefined []) 0 [] "c" h).2
  | None => lone_state
  end.

(** The declaration [{go: State.transitionTo("stateTwo"), k: State}]. *)
Definition go_declaration : jsobj :=
  [("go", State_transitionTo "stateTwo"); ("k", VClass VUndefined [])].

(** ** Vocabulary of the further properties *)

(** Every State instance that occurs in the value, as the value itself or
    in the declarations of a class, satisfies [A]. *)
Fixpoint refs_in (A : nat -> Prop) (v : value) : Prop :=
  match v with
  | VState r => A r
  | VObj fs =>
      (fix all (l : jsobj) : Prop :=
         match l with
         | [] => True
         | kv :: l' => refs_in A kv.2 /\ all l'
         end) fs
  | VClass s d =>
      refs_in A s /\
      (fix all (l : jsobj) : Prop :=
         match l with
         | [] => True
         | kv :: l' => refs_in A kv.2 /\ all l'
         end) d
  | _ => True
  end.

(** setupChild on [v], called on a state [this] of handle [lo] or more,
    keeps the property [P] of stores and does not shrink the store. *)
Definition preserved_above (P : heap -> Prop) (lo : nat) (v : value) : Prop :=
  forall this sts nm (h : heap),
    lo <= this -> this < List.length h -> P h ->
    P (setupChild v this sts nm h).2
    /\ List.length h <= List.length (setupChild v this sts nm h).2.

(** [this.childStates], empty on a missing object. *)
Definition childStates_of (h : heap) (r : ref) : list ref :=
  from_option childStates [] (h !! r).

(** The value makes setupChild attach a child: it is an instance of State
    or a subclass of State. *)
Definition is_child_value (v : value) : bool :=
  instanceof_State v || State_detect v.

(** The properties of a declaration for which the scan of [init] attaches
    a child. *)
Definition child_entries (decl : jsobj) : jsobj :=
  filter (fun kv => kv.1 <> "constructor" /\ is_child_value kv.2 = true) decl.

(** The entries of an explicit [states] for which [init] attaches a child. *)
Definition states_entries (fields : jsobj) : jsobj :=
  filter (fun kv => is_child_value kv.2 = true) fields.

(** [r] is the child that an entry gives in a store that had [lo] states:
    the instance itself, or a new state for a class. *)
Definition child_of (lo : nat) (r : ref) (kv : string * value) : Prop :=
  match kv.2 with
  | VState r' => r = r'
  | VClass _ _ => lo <= r
  | _ => False
  end.

(** Every parent chain of the store ends at a state without parent. *)
Definition chains_end (h : heap) : Prop :=
  forall n, n < List.length h -> exists l, ancestry h n l.

(** Where the parents are, in a store [h] grown from [h0]: a state of
    [h0] has the parent it had in [h0] or a new state, and a new state has
    a new state of smaller handle. *)
Definition parents_ordered (h0 h : heap) : Prop :=
  forall c oc p, h !! c = Some oc -> parentState oc = Some p ->
    p < List.length h /\
    ((c < List.length h0 /\
      (List.length h0 <= p \/ parentState <$> h0 !! c = Some (Some p)))
     \/ (List.length h0 <= p /\ p < c)).

(** The states of [h0] are in [h] with the same [childStates]. *)
Definition childStates_kept (h0 h : heap) : Prop :=
  forall x o, h0 !! x = Some o ->
    exists o', h !! x = Some o' /\ childStates o' = childStates o.

(** Every state of [h] has the kept [path] and [isLeaf] it had in [h0],
    and none when it is not in [h0]. *)
Definition memos_kept (h0 h : heap) : Prop :=
  forall x o, h !! x = Some o ->
    path_cache o = from_option path_cache None (h0 !! x)
    /\ isLeaf_cache o = from_option isLeaf_cache None (h0 !! x).

(** The child that setupChild attaches for a value, in a store [h]. *)
Definition new_child (h : heap) (v : value) : list ref :=
  match v with
  | VState r => [r]
  | VClass _ _ => [List.length h]
  | _ => []
  end.

(** The properties for which the [init] of a declaration attaches a child:
    those of an explicit [states] object, or else those of the declaration
    itself other than [constructor]. *)
Definition declared_children (csts : value) (decl : jsobj) : jsobj :=
  if truthy csts then
    match csts with
    | VObj fields => states_entries fields
    | _ => []
    end
  else child_entries decl.

(** [State.create({a: s, f: function, constructor: State, k: State})] in
    the store of [lone_state], whose state 0 is [s]. *)
Definition mixed_declaration : jsobj :=
  [("a", VState 0); ("f", VFunc 1); ("constructor", VClass VUndefined []);
   ("k", VClass VUndefined [("z", VClass VUndefined [])])].

(** [lone_state], then its state attached to itself under the name [me]. *)
Definition self_attached : heap :=
  (setupChild (VState 0) 0 [] "me" lone_state).2.

(** The [eventTransitions] that a declaration declares: those of the
    blank object. *)
Definition declared_eventTransitions (decl : jsobj) : gmap string value :=
  match obj_get "eventTransitions" decl with
  | VObj fields => list_to_map fields
  | _ => ∅
  end.

(** [State.create({states: {a: State}, go: State.transitionTo("x")})] in
    the empty store. *)
Definition explicit_states_tree : heap :=
  (State_create (VObj [("a", VClass VUndefined [])])
                [("go", State_transitionTo "x")] []).2.

(** A truthy value without [apply]: neither a function nor an object that
    could carry one. *)
Definition not_a_function (v : value) : bool :=
  match v with
  | VBool _ | VNum _ | VStr _ | VArray _ | VState _ => truthy v
  | _ => false
  end.

(** [State.create({enter: State.create({}), go: State.transitionTo("next")})]
    in the empty store, then a listener on each of [enter] and [go]: the
    child is 0, the state 1. *)
Definition named_like_events : heap :=
  Evented_on 1 "go" 21
    (Evented_on 1 "enter" 20
       (State_create VUndefined
          [("enter", VState 0); ("go", State_transitionTo "next")]
          lone_state).2).

(** [nested_tree] after a read of [path] on its state 0, and then that
    state attached to the root under the name [other]. *)
Definition renamed_after_read : heap :=
  match get_path 4 nested_tree 0 with
  | Some (_, h) => (setupChild (VState 0) 3 [] "other" h).2
  | None => nested_tree
  end.

(** The key that a [setPathsCache] call writes: the guid of the manager's
    type and the path. *)
Definition cache_key (guidFor : nat -> string)
  (op : manager * string * value) : string * string :=
  (guidFor (constructor op.1.1), op.1.2).

(** [name] and [parentState] of a state. *)
Definition name_and_parent (h : heap) (x : ref)
  : option (option string * option ref) :=
  (fun o => (name o, parentState o)) <$> h !! x.

(** The [name] that a declaration gives to the state made from it. *)
Definition declared_name (decl : jsobj) : option string :=
  match obj_get "name" decl with
  | VStr s => Some s
  | _ => None
  end.

(** The declared [states] is absent or falsy, an object literal, or a
    primitive, which has no property that holds a state. *)
Definition plain_states (csts : value) : bool :=
  match csts with
  | VUndefined | VNull | VBool _ | VNum _ | VStr _ | VObj _ => true
  | _ => false
  end.

(** * Properties *)

(** ** setupChild on malformed entries *)

Lemma falsy_not_State v :
  truthy v = false -> instanceof_State v = false /\ State_detect v = false.
Proof. by destruct v. Qed.

Lemma setupChild_malformed v this sts nm (h : heap) :
  instanceof_State v = false -> State_detect v = false ->
  setupChild v this sts nm h
  = (if truthy v then VUndefined else VBool false, sts, h).
Proof.
  intros Hi Hd. destruct v; try done; simpl;
    try (by destruct b); try (by destruct (_ =? _)%Z);
    try (by destruct (String.eqb _ _)).
Qed.

(** C8: setupChild with a falsy value changes nothing and returns [false];
    with a truthy value that is neither an instance of State nor a subclass
    of State it changes neither the store (so no [childStates]) nor the
    [states] mapping and returns undefined.  No error case exists: the
    result is an ordinary value in both cases. *)
Theorem setupChild_skips_malformed (v : value) (this : ref) (sts : jsobj)
  (nm : string) (h : heap) :
  (truthy v = false ->
     setupChild v this sts nm h = (VBool false, sts, h)) /\
  (truthy v = true -> instanceof_State v = false -> State_detect v = false ->
     setupChild v this sts nm h = (VUndefined, sts, h)).
Proof.
  split.
  - intros Hv. destruct (falsy_not_State v Hv) as [Hi Hd].
    by rewrite setupChild_malformed, Hv.
  - intros Hv Hi Hd. by rewrite setupChild_malformed, Hv.
Qed.

Lemma setupChild_skips_malformed_witness :
  setupChild VNull 0 [("a", VNum 1)] "b" [] = (VBool false, [("a", VNum 1)], [])
  /\ setupChild (VFunc 7) 0 [("a", VNum 1)] "b" []
     = (VUndefined, [("a", VNum 1)], []).
Proof.
  split.
  - apply (proj1 (setupChild_skips_malformed VNull 0 [("a", VNum 1)] "b" [])).
    reflexivity.
  - apply (proj2 (setupChild_skips_malformed (VFunc 7) 0 [("a", VNum 1)] "b" []));
      reflexivity.
Defined.

(** ** The paths caches *)

Section PathsCacheFacts.

Variable guidFor : nat -> string.

Lemma getPathsCache_eq this m p (h : heap) o :
  h !! this = Some o ->
  getPathsCache guidFor this m p h
  = Some (dict_get VUndefined p
            (dict_get ∅ (guidFor (constructor m)) (pathsCaches o)), h).
Proof. intros Ho. unfold getPathsCache. by rewrite Ho. Qed.

Lemma setPathsCache_lookup this m p v (h : heap) o :
  h !! this = Some o ->
  setPathsCache guidFor this m p v h !! this
  = Some (set_pathsCaches
            (<[guidFor (constructor m) :=
                 <[p := v]> (dict_get ∅ (guidFor (constructor m))
                                      (pathsCaches o))]> (pathsCaches o)) o).
Proof.
  intros Ho. unfold setPathsCache.
  by rewrite list_lookup_alter_eq, Ho.
Qed.

Lemma get_after_set this m1 m2 p q v (h : heap) o :
  h !! this = Some o ->
  getPathsCache guidFor this m2 q (setPathsCache guidFor this m1 p v h)
  = Some (if decide (guidFor (constructor m2) = guidFor (constructor m1)
                     /\ q = p)
          then v
          else dict_get VUndefined q
                 (dict_get ∅ (guidFor (constructor m2)) (pathsCaches o)),
          setPathsCache guidFor this m1 p v h).
Proof.
  intros Ho.
  rewrite (getPathsCache_eq _ _ _ _ _ (setPathsCache_lookup _ m1 p v _ _ Ho)).
  do 2 f_equal. simpl. unfold dict_get.
  destruct (decide (guidFor (constructor m2) = guidFor (constructor m1)))
    as [Hg|Hg].
  - rewrite Hg, lookup_insert_eq. simpl.
    destruct (decide (q = p)) as [->|Hq].
    + rewrite lookup_insert_eq. by rewrite decide_True.
    + rewrite lookup_insert_ne by done. by rewrite decide_False by tauto.
  - rewrite lookup_insert_ne by done. by rewrite decide_False by tauto.
Qed.

Lemma setPathsCache_all_lookup this ops (h : heap) o :
  h !! this = Some o ->
  exists o', setPathsCache_all guidFor this ops h !! this = Some o'.
Proof.
  revert h o. induction ops as [|op ops IH]; intros h o Ho; simpl.
  - eauto.
  - eapply IH, setPathsCache_lookup, Ho.
Qed.

Hypothesis guidFor_inj : Inj (=) (=) guidFor.

Lemma never_set_absent this ops m q (h : heap) o :
  h !! this = Some o ->
  (constructor m, q) ∉ (fun op : manager * string * value =>
                          (constructor op.1.1, op.1.2)) <$> ops ->
  fst <$> getPathsCache guidFor this m q (setPathsCache_all guidFor this ops h)
  = fst <$> getPathsCache guidFor this m q h.
Proof.
  revert h o. induction ops as [|[[m1 p] v] ops IH]; intros h o Ho Hn.
  - done.
  - simpl in *. apply not_elem_of_cons in Hn as [Hne Hn].
    destruct (setPathsCache_all_lookup this [] _ _
                (setPathsCache_lookup this m1 p v h o Ho)) as [o1 Ho1].
    simpl in Ho1.
    rewrite (IH _ _ Ho1 Hn), (get_after_set _ _ _ _ _ _ _ _ Ho).
    rewrite (getPathsCache_eq _ _ _ _ _ Ho). simpl. f_equal.
    rewrite decide_False; [done|].
    intros [Hg ->]. apply guidFor_inj in Hg. congruence.
Qed.

End PathsCacheFacts.

(** [init] ends with [set(this, 'pathsCaches', {})]. *)
Lemma State_create_pathsCaches csts decl (h : heap) o :
  (State_create csts decl h).2 !! List.length h = Some o -> pathsCaches o = ∅.
Proof.
  unfold State_create, init, init_with. simpl.
  match goal with |- context [let '(_, _) := ?p in _] =>
    destruct p as [s h'] end.
  rewrite list_lookup_alter_eq. destruct (h' !! _); simpl; [|done].
  by intros [= <-].
Qed.


Lemma ember_guid_inj : Inj (=) (=) ember_guid.
Proof.
  intros c1 c2 Hc. unfold ember_guid in Hc.
  by apply (inj (String.app "ember")), (inj pretty) in Hc.
Qed.

Lemma lone_state_lookup : lone_state !! 0 = Some lone_object.
Proof. reflexivity. Qed.




(** ** The function made by State.transitionTo *)

(** C3, as the code has it: the made function, called with a manager, [x]
    and more arguments, forwards the target followed by (1) the own
    [contexts] of [x] when [x] is an instance of [Ember.$.Event] that has
    them, (2) nothing when [x] is such an instance without own [contexts],
    (3) [x] and all later arguments when [x] is no instance of
    [Ember.$.Event] or that constructor is not defined; it makes this one
    call and returns undefined. *)
Theorem transitionFunction_forwards (hasEvent : bool) (target : string)
  (m : manager) (x : value) (rest : list value) :
  (hasEvent = true -> forall cs, x = VEvent (Some cs) ->
     transitionFunction hasEvent target (VManager m :: x :: rest)
     = ([CallTransitionTo m (VStr target :: cs)], Returns VUndefined)) /\
  (hasEvent = true -> x = VEvent None ->
     transitionFunction hasEvent target (VManager m :: x :: rest)
     = ([CallTransitionTo m [VStr target]], Returns VUndefined)) /\
  (hasEvent = false \/ (forall own, x <> VEvent own) ->
     transitionFunction hasEvent target (VManager m :: x :: rest)
     = ([CallTransitionTo m (VStr target :: x :: rest)], Returns VUndefined)).
Proof.
  split; [|split].
  - by intros -> cs ->.
  - by intros -> ->.
  - intros [->|Hx]; [by destruct x|].
    destruct x; try done. by destruct (Hx contexts).
Qed.

Lemma transitionFunction_forwards_witness :
  transitionFunction true "stateTwo" [VManager a_manager; VEvent (Some [VNum 42])]
  = ([CallTransitionTo a_manager [VStr "stateTwo"; VNum 42]], Returns VUndefined)
  /\ transitionFunction true "stateTwo" [VManager a_manager; VEvent None; VNum 2]
     = ([CallTransitionTo a_manager [VStr "stateTwo"]], Returns VUndefined)
  /\ transitionFunction true "stateTwo"
       [VManager a_manager; VNum 1; VNum 2; VNum 3]
     = ([CallTransitionTo a_manager [VStr "stateTwo"; VNum 1; VNum 2; VNum 3]],
        Returns VUndefined)
  /\ transitionFunction true "stateTwo"
       [VManager a_manager; VObj [("contexts", VArray [VNum 42])]]
     = ([CallTransitionTo a_manager
           [VStr "stateTwo"; VObj [("contexts", VArray [VNum 42])]]],
        Returns VUndefined).
Proof.
  split; [|split; [|split]].
  - by apply (proj1 (transitionFunction_forwards true "stateTwo" a_manager
                       (VEvent (Some [VNum 42])) [])).
  - by apply (proj1 (proj2 (transitionFunction_forwards true "stateTwo"
                              a_manager (VEvent None) [VNum 2]))).
  - apply (proj2 (proj2 (transitionFunction_forwards true "stateTwo"
                           a_manager (VNum 1) [VNum 2; VNum 3]))).
    by right.
  - apply (proj2 (proj2 (transitionFunction_forwards true "stateTwo" a_manager
                           (VObj [("contexts", VArray [VNum 42])]) []))).
    by right.
Defined.

(** C3 as stated fails: an [Ember.$.Event] instance without own [contexts]
    is not forwarded with the later arguments; the manager gets the target
    alone. *)
Lemma transitionFunction_drops_bare_event :
  transitionFunction true "stateTwo" [VManager a_manager; VEvent None; VNum 2]
  = ([CallTransitionTo a_manager [VStr "stateTwo"]], Returns VUndefined)
  /\ transitionFunction true "stateTwo" [VManager a_manager; VEvent None; VNum 2]
     <> ([CallTransitionTo a_manager [VStr "stateTwo"; VEvent None; VNum 2]],
         Returns VUndefined).
Proof. split; [reflexivity|discriminate]. Qed.

(** ** trigger *)

Lemma Evented_trigger_eq this ls nm args :
  Evented_trigger this ls nm args
  = (map (fun l => CallListener this l args) (listeners_for nm ls), Returns tt).
Proof.
  unfold listeners_for. induction ls as [|[e l] ls IH]; [done|].
  simpl. rewrite IH, filter_cons. simpl.
  destruct (String.eqb_spec e nm) as [->|Hne].
  - by rewrite decide_True.
  - by rewrite decide_False.
Qed.


Lemma listening_state_lookup :
  exists o, listening_state !! 0 = Some o
            /\ obj_get "enter" (props o) = VFunc 1
            /\ listeners o = [("enter", 10); ("exit", 11); ("enter", 12)].
Proof. eexists. split; [reflexivity|]. split; reflexivity. Qed.


(** ** lookupEventTransition *)

Lemma resolve_truthy h nm chain path :
  truthy path = true -> resolve h nm chain path = path.
Proof. intros Hp. destruct chain; simpl; by rewrite ?Hp. Qed.

Lemma lookup_loop_chain h nm n chain :
  ancestry h n chain ->
  forall fuel path, List.length chain <= fuel ->
    lookup_loop fuel h nm (Some n) path = Some (resolve h nm chain path).
Proof.
  induction 1 as [n o Ho Hp|n o p l Ho Hp Hl IH]; intros fuel path Hf;
    simpl in Hf; (destruct fuel as [|fuel]; [lia|]); simpl;
    (destruct (truthy path) eqn:Ht; [done|]); rewrite Ho; simpl; rewrite Hp.
  - unfold entry. rewrite Ho. by destruct fuel.
  - rewrite IH by lia. unfold entry at 1. by rewrite Ho.
Qed.

Lemma resolve_nearest h nm l1 r l2 path :
  truthy path = false ->
  Forall (fun x => truthy (entry h nm x) = false) l1 ->
  truthy (entry h nm r) = true ->
  resolve h nm (l1 ++ r :: l2) path = entry h nm r.
Proof.
  intros Hp Hl1 Hr. revert path Hp.
  induction Hl1 as [|x l1 Hx Hl1 IH]; intros path Hp; simpl; rewrite Hp.
  - by apply resolve_truthy.
  - by apply IH.
Qed.

Lemma resolve_none h nm l path :
  truthy path = false ->
  Forall (fun x => truthy (entry h nm x) = false) l ->
  resolve h nm l path = from_option (entry h nm) path (last l).
Proof.
  intros Hp Hl. revert path Hp.
  induction Hl as [|x l Hx Hl IH]; intros path Hp; simpl; [done|].
  rewrite Hp, (IH _ Hx), last_cons. by destruct (last l).
Qed.


Lemma nested_tree_chain : ancestry nested_tree 0 [0; 1; 2; 3].
Proof.
  eapply ancestry_parent; [reflexivity..|].
  eapply ancestry_parent; [reflexivity..|].
  eapply ancestry_parent; [reflexivity..|].
  eapply ancestry_root; reflexivity.
Qed.



(** ** The computed path *)

Lemma string_app_assoc (s1 s2 s3 : string) :
  (s1 +:+ s2) +:+ s3 = s1 +:+ (s2 +:+ s3).
Proof.
  induction s1 as [|c s1 IH]; [done|].
  change (String c ((s1 +:+ s2) +:+ s3) = String c (s1 +:+ s2 +:+ s3)).
  by f_equal.
Qed.

(** A read of [path] writes memos and nothing else. *)
Lemma get_path_writes_memos fuel :
  forall (h h' : heap) n p,
    get_path fuel h n = Some (p, h') ->
    forall x o, h !! x = Some o -> exists c, h' !! x = Some (set_path_cache c o).
Proof.
  induction fuel as [|fuel IH]; intros h h' n p Hg x o Hx; [done|].
  simpl in Hg. destruct (h !! n) as [on|] eqn:Hn; [|done]. simpl in Hg.
  destruct (path_cache on) as [c|] eqn:Hc.
  - injection Hg as <- <-. exists (path_cache o). rewrite Hx. by destruct o.
  - destruct (parentState on) as [q|].
    + destruct (get_path fuel h q) as [[pp h1]|] eqn:Hq; [|done]. simpl in Hg.
      destruct (IH _ _ _ _ Hq x o Hx) as [c1 Hx1].
      destruct (h1 !! n) as [o1|]; [|done]. simpl in Hg.
      injection Hg as <- <-.
      destruct (decide (n = x)) as [->|Hne].
      * rewrite list_lookup_alter_eq, Hx1. simpl. eauto.
      * rewrite list_lookup_alter_ne by done. eauto.
    + simpl in Hg. rewrite Hn in Hg. simpl in Hg. injection Hg as <- <-.
      destruct (decide (n = x)) as [->|Hne].
      * rewrite list_lookup_alter_eq, Hx. simpl. exists (Some (join_path None (name on))).
        by destruct o.
      * rewrite list_lookup_alter_ne by done. exists (path_cache o). by destruct o.
Qed.

Lemma ancestry_functional (h : heap) n l1 :
  ancestry h n l1 -> forall l2, ancestry h n l2 -> l1 = l2.
Proof.
  induction 1 as [n o Ho Hp|n o p l Ho Hp Hl IH]; intros l2 H2;
    inversion H2 as [n' o' Ho' Hp'|n' o' p' l' Ho' Hp' Hl']; subst;
    rewrite Ho in Ho'; injection Ho' as <-; try congruence.
  rewrite Hp in Hp'. injection Hp' as <-. f_equal. by apply IH.
Qed.

Lemma ancestry_suffix (h : heap) n l :
  ancestry h n l ->
  forall l1 x l2, l = l1 ++ x :: l2 -> ancestry h x (x :: l2).
Proof.
  induction 1 as [n o Ho Hp|n o p l Ho Hp Hl IH]; intros l1 x l2 Heq.
  - destruct l1 as [|y l1]; simplify_eq/=.
    + by eapply ancestry_root.
    + by destruct l1.
  - destruct l1 as [|y l1]; simplify_eq/=.
    + by eapply ancestry_parent.
    + by eapply IH.
Qed.

Lemma ancestry_acyclic (h : heap) n l : ancestry h n (n :: l) -> n ∉ l.
Proof.
  intros Ha Hin. apply list_elem_of_split in Hin as (l1 & l2 & ->).
  pose proof (ancestry_suffix h n _ Ha (n :: l1) n l2 eq_refl) as Hs.
  pose proof (ancestry_functional h n _ Ha _ Hs) as Heq.
  apply (f_equal List.length) in Heq. simpl in Heq.
  rewrite length_app in Heq. simpl in Heq. lia.
Qed.

Lemma memos_agree_ext (h h' : heap) l :
  (forall x, x ∈ l -> h' !! x = h !! x) -> memos_agree h l -> memos_agree h' l.
Proof.
  induction l as [|n l IH]; intros Hext Hm; [done|].
  assert (name_of h' <$> n :: l = name_of h <$> n :: l) as Hnames.
  { apply list_fmap_ext. intros i x Hx. unfold name_of.
    by rewrite Hext by (by eapply list_elem_of_lookup_2). }
  destruct Hm as [(o & Ho & Hc) Hm]. split.
  - exists o. rewrite Hext by (by left). by rewrite Hnames.
  - apply IH; [|done]. intros x Hx. apply Hext. by right.
Qed.

Lemma ancestry_exists (h : heap) n l :
  ancestry h n l -> Forall (fun x => is_Some (h !! x)) l.
Proof.
  induction 1 as [n o Ho Hp|n o p l Ho Hp Hl IH]; constructor; eauto.
Qed.

Lemma names_after_read (h h' : heap) l :
  (forall x o, h !! x = Some o -> exists c, h' !! x = Some (set_path_cache c o)) ->
  Forall (fun x => is_Some (h !! x)) l ->
  name_of h' <$> l = name_of h <$> l.
Proof.
  intros Hw Hl. induction Hl as [|x l [o Ho] Hl IH]; [done|].
  rewrite !fmap_cons, IH. f_equal. unfold name_of.
  destruct (Hw x o Ho) as [c Hx]. by rewrite Ho, Hx.
Qed.

Lemma get_path_chain (h : heap) (n : ref) (chain : list ref) :
  ancestry h n chain ->
  memos_agree h chain ->
  forall fuel, List.length chain <= fuel ->
    exists h', get_path fuel h n
               = Some (path_of_names (name_of h <$> chain), h')
               /\ memos_agree h' chain.
Proof.
  intros Hanc.
  pose proof (ancestry_exists h n chain Hanc) as Hex. revert Hex.
  induction Hanc as [n o Ho Hp|n o p l Ho Hp Hl IH]; intros Hex Hu fuel Hf;
    simpl in Hf; (destruct fuel as [|fuel]; [lia|]);
    pose proof Hu as [(o' & Ho' & Hc) Hu'];
    rewrite Ho in Ho'; injection Ho' as <-;
    assert (name_of h n = name o) as Hname
      by (unfold name_of; by rewrite Ho);
    cbn [get_path]; rewrite Ho; simpl;
    (destruct Hc as [Hc|Hc]; rewrite Hc; [|by eauto]); rewrite Hp; simpl.
  - rewrite Ho, Hname. simpl. eexists. split; [done|]. split; [|done].
    eexists. rewrite list_lookup_alter_eq, Ho. simpl. split; [done|].
    right. simpl. unfold name_of. by rewrite list_lookup_alter_eq, Ho.
  - apply Forall_cons in Hex as [_ Hex'].
    destruct (IH Hex' Hu' fuel ltac:(lia)) as (h1 & Hq & Hm1).
    rewrite Hq. simpl.
    pose proof (get_path_writes_memos _ _ _ _ _ Hq) as Hw.
    destruct (Hw n o Ho) as [c Hn]. rewrite Hn, Hname. simpl.
    eexists. split; [done|].
    assert (n ∉ l) as Hnl
      by apply (ancestry_acyclic h), (ancestry_parent h n o p l Ho Hp Hl).
    assert (forall c' x, x ∈ l ->
              alter (set_path_cache c') n h1 !! x = h1 !! x) as Hext.
    { intros c' x Hx. apply list_lookup_alter_ne. by intros ->. }
    split; [|apply (memos_agree_ext h1); [by intros; apply Hext|done]].
    eexists. rewrite list_lookup_alter_eq, Hn. simpl. split; [done|].
    right. simpl. f_equal. f_equal.
    + f_equal. rewrite <-(names_after_read h h1 l Hw Hex').
      apply list_fmap_ext. intros i x Hx. unfold name_of.
      by rewrite Hext by (by eapply list_elem_of_lookup_2).
    + unfold name_of. by rewrite list_lookup_alter_eq, Hn.
Qed.

(** C2: on a state whose parent chain is wired up to a root, a read of
    [path] returns the path spelled by the names of the chain: the name of
    a state without parent, and for a state with a parent the parent's
    path, a dot and the name when the parent's path is a nonempty string,
    the name alone otherwise.  The computed property keeps what it computed
    first, so the chain is wired before [path] is first read on it: each
    state of the chain has no kept path or one computed on this chain, and
    the read leaves the chain so.  For a chain root, a, b, n with an unnamed
    root and a nonempty name [a], the path of n is [a.b.] followed by the
    name of n. *)
Theorem path_of_wired_chain (h : heap) (n : ref) (chain : list ref)
  (fuel : nat) :
  ancestry h n chain -> memos_agree h chain ->
  List.length chain <= fuel ->
  exists path h',
    get_path fuel h n = Some (path, h') /\
    memos_agree h' chain /\
    path = path_of_names (name_of h <$> chain) /\
    (forall o, h !! n = Some o ->
       match parentState o with
       | None => path = name o
       | Some p =>
           exists parentPath h1,
             get_path fuel h p = Some (parentPath, h1) /\
             path = if truthy_path parentPath
                    then Some (default "" parentPath +:+ "." +:+
                               name_string (name o))
                    else name o
       end) /\
    (forall nn a b,
       name_of h <$> chain = [nn; Some b; Some a; None] -> a <> "" ->
       path = Some ((a +:+ "." +:+ b +:+ ".") +:+ name_string nn)).
Proof.
  intros Hc Hu Hf.
  destruct (get_path_chain h n chain Hc Hu fuel Hf) as (h' & Hg & Hm).
  eexists _, h'. split; [exact Hg|]. split; [exact Hm|]. split; [done|]. split.
  - intros o Ho.
    assert (name_of h n = name o) as Hname by (unfold name_of; by rewrite Ho).
    inversion Hc as [n' o' Ho' Hp|n' o' p l Ho' Hp Hl]; subst;
      rewrite Ho in Ho'; injection Ho' as <-; rewrite Hp.
    + simpl. by rewrite Hname.
    + destruct Hu as [_ Hu]. simpl in Hf.
      destruct (get_path_chain h p l Hl Hu fuel ltac:(lia)) as (h1 & Hg1 & _).
      eexists _, h1. split; [exact Hg1|]. simpl. by rewrite Hname.
  - intros nn a b -> Ha. simpl. unfold join_path at 3. simpl.
    unfold join_path at 2. simpl.
    apply String.eqb_neq in Ha. rewrite Ha. simpl.
    unfold join_path. simpl.
    destruct a as [|c a]; [by rewrite String.eqb_refl in Ha|]. simpl.
    by rewrite !string_app_assoc.
Qed.

Lemma path_of_wired_chain_witness :
  exists h', get_path 4 nested_tree 0 = Some (Some "a.b.n", h').
Proof.
  destruct (path_of_wired_chain nested_tree 0 [0; 1; 2; 3] 4 nested_tree_chain)
    as (path & h' & Hg & _ & _ & _ & Hn).
  - repeat (split; [eexists; split; [reflexivity|by left]|]). exact I.
  - simpl. lia.
  - exists h'. rewrite Hg. rewrite (Hn (Some "n") "a" "b"); [done|reflexivity|done].
Defined.

(** ** Induction over nested declarations *)

Section ValueInduction.

Variable P : value -> Prop.
Hypothesis P_other :
  forall v, (forall fs, v <> VObj fs) -> (forall s d, v <> VClass s d) -> P v.
Hypothesis P_obj : forall fs, Forall (fun kv => P kv.2) fs -> P (VObj fs).
Hypothesis P_class :
  forall s d, P s -> Forall (fun kv => P kv.2) d -> P (VClass s d).

Lemma value_nested_ind : forall v, P v.
Proof.
  fix IH 1. intros v. destruct v as [| | | | | |fs| | | | | |s d];
    try (apply P_other; discriminate).
  - apply P_obj. induction fs as [|kv fs IHfs]; constructor; [apply IH|apply IHfs].
  - apply P_class; [apply IH|].
    induction d as [|kv d IHd]; constructor; [apply IH|apply IHd].
Qed.

End ValueInduction.

(** ** What setupChild and init preserve *)

Lemma setupChild_State r this sts nm h :
  setupChild (VState r) this sts nm h = attach this sts nm r (adopt this nm r h).
Proof. reflexivity. Qed.

Lemma setupChild_Class csts decl this sts nm (h : heap) :
  setupChild (VClass csts decl) this sts nm h
  = attach this sts nm (List.length h)
      (init (List.length h) csts decl
         (h ++ [blank csts decl (Some nm) (container_of h this)])).
Proof. reflexivity. Qed.

Lemma adopt_length this nm r (h : heap) :
  List.length (adopt this nm r h) = List.length h.
Proof. unfold adopt. by rewrite !length_alter. Qed.

Lemma attach_length this sts nm r (h : heap) :
  List.length (attach this sts nm r h).2 = List.length h.
Proof. unfold attach. simpl. by rewrite !length_alter. Qed.

Section Preservation.

Variable P : heap -> Prop.
Variable lo : nat.

Hypothesis P_alloc : forall (h : heap) sts decl nm c,
  lo <= List.length h -> P h -> P (h ++ [blank sts decl nm c]).
Hypothesis P_adopt : forall (h : heap) this nm r, P h -> P (adopt this nm r h).
Hypothesis P_attach : forall (h : heap) this sts nm r,
  this < List.length h -> P h -> P (attach this sts nm r h).2.
Hypothesis P_register : forall (h : heap) this nm t,
  lo <= this -> this < List.length h -> P h -> P (register this nm t h).
Hypothesis P_finish : forall (h : heap) this s,
  lo <= this -> this < List.length h -> P h ->
  P (alter (fun o => set_pathsCaches ∅ (set_states s o)) this h).

#[local] Abbreviation preserved := (preserved_by P lo).

Lemma scan_step_preserved k v :
  preserved v ->
  forall this sts (h : heap),
    lo <= this -> this < List.length h -> P h ->
    P (scan_step setupChild this (sts, h) (k, v)).2
    /\ List.length h
       <= List.length (scan_step setupChild this (sts, h) (k, v)).2.
Proof.
  intros Hv this sts h Hlo Hth HP. unfold scan_step.
  destruct (String.eqb k "constructor"); [done|].
  destruct (truthy v); [|done].
  set (h1 := if truthy (transitionTarget h v)
             then register this k (transitionTarget h v) h else h).
  assert (P h1 /\ List.length h1 = List.length h) as [HP1 Hl1].
  { unfold h1. destruct (truthy (transitionTarget h v)); [|done].
    split; [by apply P_register|]. unfold register. by rewrite length_alter. }
  clearbody h1.
  destruct (Hv this sts k h1) as [HP2 Hl2]; [lia..|done|].
  destruct (setupChild v this sts k h1) as [[res sts'] h2]. simpl in *.
  split; [done|lia].
Qed.

Lemma states_step_preserved k v :
  preserved v ->
  forall this sts (h : heap),
    lo <= this -> this < List.length h -> P h ->
    P (states_step setupChild this (sts, h) (k, v)).2
    /\ List.length h
       <= List.length (states_step setupChild this (sts, h) (k, v)).2.
Proof.
  intros Hv this sts h Hlo Hth HP. unfold states_step.
  destruct (Hv this sts k h) as [HP2 Hl2]; [lia..|done|].
  by destruct (setupChild v this sts k h) as [[res sts'] h2].
Qed.

Lemma loop_preserved (step : jsobj * heap -> string * value -> jsobj * heap)
  (this : ref) decl :
  Forall (fun kv => forall sts (h : heap),
            this < List.length h -> P h ->
            P (step (sts, h) kv).2
            /\ List.length h <= List.length (step (sts, h) kv).2) decl ->
  forall sts (h : heap),
    this < List.length h -> P h ->
    P (fold_left step decl (sts, h)).2
    /\ List.length h <= List.length (fold_left step decl (sts, h)).2.
Proof.
  induction 1 as [|kv decl Hkv Hd IH]; intros sts h Hth HP; [done|].
  simpl. destruct (Hkv sts h Hth HP) as [HP1 Hl1].
  destruct (step (sts, h) kv) as [sts1 h1]. simpl in *.
  destruct (IH sts1 h1) as [HP2 Hl2]; [lia|done|]. split; [done|lia].
Qed.

Lemma scan_preserved decl :
  Forall (fun kv => preserved kv.2) decl ->
  forall this sts (h : heap),
    lo <= this -> this < List.length h -> P h ->
    P (fold_left (scan_step setupChild this) decl (sts, h)).2
    /\ List.length h
       <= List.length (fold_left (scan_step setupChild this) decl (sts, h)).2.
Proof.
  intros Hd this sts h Hlo Hth HP. apply (loop_preserved _ this); [|done..].
  eapply Forall_impl; [exact Hd|]. intros [k v] Hv sts1 h1 Hth1 HP1.
  by apply scan_step_preserved.
Qed.

Lemma states_preserved fields :
  Forall (fun kv => preserved kv.2) fields ->
  forall this sts (h : heap),
    lo <= this -> this < List.length h -> P h ->
    P (fold_left (states_step setupChild this) fields (sts, h)).2
    /\ List.length h
       <= List.length (fold_left (states_step setupChild this) fields (sts, h)).2.
Proof.
  intros Hd this sts h Hlo Hth HP. apply (loop_preserved _ this); [|done..].
  eapply Forall_impl; [exact Hd|]. intros [k v] Hv sts1 h1 Hth1 HP1.
  by apply states_step_preserved.
Qed.

Lemma init_preserved csts decl :
  (forall fs, csts = VObj fs -> Forall (fun kv => preserved kv.2) fs) ->
  Forall (fun kv => preserved kv.2) decl ->
  forall this (h : heap),
    lo <= this -> this < List.length h -> P h ->
    P (init this csts decl h)
    /\ List.length h <= List.length (init this csts decl h).
Proof.
  intros Hs Hd this h Hlo Hth HP. unfold init, init_with.
  assert (forall s (h' : heap), P h' -> List.length h <= List.length h' ->
            P (alter (fun o => set_pathsCaches ∅ (set_states s o)) this h')
            /\ List.length h
               <= List.length (alter (fun o => set_pathsCaches ∅ (set_states s o))
                                     this h')) as Hfin.
  { intros s h' HP' Hl. split; [apply P_finish; [done|lia|done]|].
    by rewrite length_alter. }
  destruct (truthy csts).
  - destruct csts; try by apply Hfin.
    destruct (states_preserved fields (Hs _ eq_refl) this fields h)
      as [HP1 Hl1]; [done..|].
    destruct (fold_left _ fields (fields, h)) as [s h1]. by apply Hfin.
  - destruct (scan_preserved decl Hd this [] h) as [HP1 Hl1]; [done..|].
    destruct (fold_left _ decl ([], h)) as [s h1]. by apply Hfin.
Qed.

Lemma setupChild_preserved_all v :
  preserved v /\ (forall fs, v = VObj fs -> Forall (fun kv => preserved kv.2) fs).
Proof.
  induction v as [v Hobj Hcls|fs IH|s d [_ IHs] IHd] using value_nested_ind.
  - split; [|intros fs ->; by destruct (Hobj fs)].
    intros this sts nm h Hth Hlo HP.
    destruct (instanceof_State v) eqn:Hi.
    + destruct v; try done. rewrite setupChild_State.
      rewrite attach_length, adopt_length. split; [|done].
      apply P_attach; [by rewrite adopt_length|]. by apply P_adopt.
    + rewrite setupChild_malformed; [done..|].
      destruct v as [| | | | | | | | | | | |s d]; try done.
      by destruct (Hcls s d).
  - split.
    + intros this sts nm h Hth Hlo HP. by simpl.
    + intros fs' [= <-]. eapply Forall_impl; [exact IH|]. by intros kv [H _].
  - split; [|done].
    intros this sts nm h Hth Hlo HP. rewrite setupChild_Class.
    rewrite attach_length.
    destruct (init_preserved s d IHs
                (Forall_impl _ _ _ IHd (fun kv H => proj1 H))
                (List.length h)
                (h ++ [blank s d (Some nm) (container_of h this)]))
      as [HP1 Hl1]; [done|rewrite length_app; simpl; lia|by apply P_alloc|].
    rewrite length_app in Hl1. simpl in Hl1.
    split; [|lia]. apply P_attach; [lia|done].
Qed.

Lemma setupChild_preserved v : preserved v.
Proof. apply setupChild_preserved_all. Qed.

Lemma State_create_preserved csts decl (h : heap) :
  lo <= List.length h -> P h ->
  P (State_create csts decl h).2
  /\ List.length h < List.length (State_create csts decl h).2.
Proof.
  intros Hlo HP. unfold State_create. simpl.
  assert (forall l : jsobj, Forall (fun kv => preserved kv.2) l) as Hall.
  { intros l. apply Forall_forall. intros kv _. apply setupChild_preserved. }
  destruct (init_preserved csts decl (fun fs _ => Hall fs) (Hall decl)
              (List.length h)
              (h ++ [blank csts decl
                       match obj_get "name" decl with
                       | VStr s => Some s
                       | _ => None
                       end (obj_get "container" decl)]))
    as [HP1 Hl1]; [done|rewrite length_app; simpl; lia|by apply P_alloc|].
  rewrite length_app in Hl1. simpl in Hl1. split; [done|lia].
Qed.

End Preservation.

(** ** The frame of setupChild *)

Lemma untouched_refl o : untouched o o.
Proof. by split. Qed.

Lemma untouched_trans o1 o2 o3 :
  untouched o1 o2 -> untouched o2 o3 -> untouched o1 o3.
Proof. intros [] []. split; congruence. Qed.

Lemma frame_refl (h : heap) : frame h h.
Proof. intros r o Ho. exists o. split; [done|apply untouched_refl]. Qed.

Lemma frame_alter (h0 h : heap) f r :
  (forall o, untouched o (f o)) -> frame h0 h -> frame h0 (alter f r h).
Proof.
  intros Hf Hfr x o Hx. destruct (Hfr x o Hx) as (o' & Hx' & Hu).
  destruct (decide (r = x)) as [->|Hne].
  - exists (f o'). rewrite list_lookup_alter_eq, Hx'. split; [done|].
    eapply untouched_trans; [exact Hu|apply Hf].
  - exists o'. by rewrite list_lookup_alter_ne.
Qed.

Lemma frame_alter_new (h0 h : heap) f r :
  List.length h0 <= r -> frame h0 h -> frame h0 (alter f r h).
Proof.
  intros Hr Hfr x o Hx. destruct (Hfr x o Hx) as (o' & Hx' & Hu).
  apply lookup_lt_Some in Hx. exists o'.
  rewrite list_lookup_alter_ne by lia. done.
Qed.

Lemma frame_alloc (h0 h : heap) o : frame h0 h -> frame h0 (h ++ [o]).
Proof.
  intros Hfr x ox Hx. destruct (Hfr x ox Hx) as (o' & Hx' & Hu).
  exists o'. split; [|done]. rewrite lookup_app_l; [done|].
  by apply lookup_lt_Some in Hx'.
Qed.

Lemma frame_adopt (h0 h : heap) this nm r :
  frame h0 h -> frame h0 (adopt this nm r h).
Proof. intros Hfr. unfold adopt. by do 2 (apply frame_alter; [by split|]). Qed.

Lemma frame_attach (h0 h : heap) this sts nm r :
  frame h0 h -> frame h0 (attach this sts nm r h).2.
Proof. intros Hfr. unfold attach. simpl. by do 2 (apply frame_alter; [by split|]). Qed.

Lemma setupChild_frame v this sts nm (h : heap) :
  this < List.length h -> frame h (setupChild v this sts nm h).2.
Proof.
  intros Hth.
  apply (setupChild_preserved (frame h) (List.length h)); try done.
  - intros. by apply frame_alloc.
  - intros. by apply frame_adopt.
  - intros. by apply frame_attach.
  - intros. by apply frame_alter_new.
  - intros. by apply frame_alter_new.
  - apply frame_refl.
Qed.

Lemma setupChild_grows v this sts nm (h : heap) :
  this < List.length h ->
  List.length h <= List.length (setupChild v this sts nm h).2.
Proof.
  intros Hth.
  by apply (setupChild_preserved (fun _ => True) 0); try done; lia.
Qed.

(** ** Ownership *)

Lemma parent_owns_alter_other (h : heap) f r :
  (forall o, parentState (f o) = parentState o
             /\ childStates (f o) = childStates o) ->
  parent_owns h -> parent_owns (alter f r h).
Proof.
  intros Hf Hown c oc p Hc Hp.
  assert (exists oc0, h !! c = Some oc0 /\ parentState oc0 = Some p)
    as (oc0 & Hc0 & Hp0).
  { destruct (decide (r = c)) as [->|Hne].
    - rewrite list_lookup_alter_eq in Hc.
      destruct (h !! c) as [oc0|]; [|done]. injection Hc as <-.
      exists oc0. split; [done|]. by rewrite <-(proj1 (Hf oc0)).
    - rewrite list_lookup_alter_ne in Hc by done. eauto. }
  destruct (Hown c oc0 p Hc0 Hp0) as (op & Hop & Hin).
  destruct (decide (r = p)) as [->|Hne].
  - exists (f op). rewrite list_lookup_alter_eq, Hop. split; [done|].
    by rewrite (proj2 (Hf op)).
  - exists op. by rewrite list_lookup_alter_ne.
Qed.

Lemma parent_owns_alloc (h : heap) o :
  parentState o = None -> parent_owns h -> parent_owns (h ++ [o]).
Proof.
  intros Ho Hown c oc p Hc Hp.
  destruct (decide (c < List.length h)) as [Hlt|Hge].
  - rewrite lookup_app_l in Hc by done.
    destruct (Hown c oc p Hc Hp) as (op & Hop & Hin).
    exists op. split; [|done]. rewrite lookup_app_l; [done|].
    by apply lookup_lt_Some in Hop.
  - rewrite lookup_app_r in Hc by lia.
    destruct (c - List.length h) as [|k]; [|by destruct k].
    simpl in Hc. injection Hc as <-. congruence.
Qed.

Lemma parent_owns_attach (h : heap) this sts nm r :
  this < List.length h -> parent_owns h ->
  parent_owns (attach this sts nm r h).2.
Proof.
  intros Hth Hown c oc p Hc Hp. unfold attach in *. simpl in *.
  destruct (lookup_lt_is_Some_2 h this Hth) as [othis Hthis].
  set (h1 := alter (set_parentState (Some this)) r h) in *.
  assert (exists o1, h1 !! this = Some o1 /\ childStates o1 = childStates othis)
    as (o1 & Ho1 & Hcs1).
  { unfold h1. destruct (decide (r = this)) as [->|Hne].
    - rewrite list_lookup_alter_eq, Hthis. simpl. eauto.
    - rewrite list_lookup_alter_ne by done. eauto. }
  assert (exists oc1, h1 !! c = Some oc1 /\ parentState oc1 = Some p)
    as (oc1 & Hc1 & Hp1).
  { destruct (decide (this = c)) as [->|Hne].
    - rewrite list_lookup_alter_eq, Ho1 in Hc. injection Hc as <-. eauto.
    - rewrite list_lookup_alter_ne in Hc by done. eauto. }
  assert (exists op1, h1 !! p = Some op1 /\ (c ∈ childStates op1 \/ (c = r /\ p = this)))
    as (op1 & Hp1' & Hin1).
  { unfold h1 in Hc1. destruct (decide (r = c)) as [->|Hne].
    - rewrite list_lookup_alter_eq in Hc1.
      destruct (h !! c) as [oc0|] eqn:Hc0; [|done]. injection Hc1 as <-.
      simpl in Hp1. injection Hp1 as <-. exists o1. split; [done|]. by right.
    - rewrite list_lookup_alter_ne in Hc1 by done.
      destruct (Hown c oc1 p Hc1 Hp1) as (op & Hop & Hin).
      unfold h1. destruct (decide (r = p)) as [->|Hnep].
      + rewrite list_lookup_alter_eq, Hop. simpl. eexists. split; [done|].
        by left.
      + rewrite list_lookup_alter_ne by done. eauto. }
  destruct (decide (this = p)) as [->|Hne].
  - rewrite list_lookup_alter_eq, Hp1'. simpl. eexists. split; [done|].
    simpl. apply elem_of_app. destruct Hin1 as [Hin|[-> _]].
    + by left.
    + right. by apply list_elem_of_singleton.
  - rewrite list_lookup_alter_ne by done. exists op1. split; [done|].
    destruct Hin1 as [Hin|[_ ->]]; done.
Qed.

Lemma parent_owns_adopt (h : heap) this nm r :
  parent_owns h -> parent_owns (adopt this nm r h).
Proof.
  intros Hown. unfold adopt. by do 2 (apply parent_owns_alter_other; [done|]).
Qed.

Lemma setupChild_parent_owns v this sts nm (h : heap) :
  this < List.length h -> parent_owns h ->
  parent_owns (setupChild v this sts nm h).2.
Proof.
  intros Hth Hown.
  apply (setupChild_preserved parent_owns 0); try done; try lia.
  - intros. by apply parent_owns_alloc.
  - intros. by apply parent_owns_adopt.
  - intros. by apply parent_owns_attach.
  - intros. by apply parent_owns_alter_other.
  - intros. by apply parent_owns_alter_other.
Qed.

Lemma State_create_parent_owns csts decl (h : heap) :
  parent_owns h -> parent_owns (State_create csts decl h).2.
Proof.
  intros Hown.
  apply (State_create_preserved parent_owns 0); try done; try lia.
  - intros. by apply parent_owns_alloc.
  - intros. by apply parent_owns_adopt.
  - intros. by apply parent_owns_attach.
  - intros. by apply parent_owns_alter_other.
  - intros. by apply parent_owns_alter_other.
Qed.


Lemma parent_owns_empty : parent_owns [].
Proof. by intros c oc p Hc. Qed.



(** ** The computed isLeaf *)




(** ** The property scan of init *)

Lemma scan_app this l1 l2 acc :
  scan this (l1 ++ l2) acc = scan this l2 (scan this l1 acc).
Proof. unfold scan. apply fold_left_app. Qed.

Lemma scan_cons this kv l acc :
  scan this (kv :: l) acc = scan this l (scan_step setupChild this acc kv).
Proof. reflexivity. Qed.

Lemma init_scans this sts decl (h : heap) :
  truthy sts = false ->
  init this sts decl h = finish this (scan this decl ([], h)).
Proof.
  intros Hs. unfold init, init_with, finish, scan. rewrite Hs.
  by destruct (fold_left _ decl ([], h)).
Qed.

Lemma transitionTarget_frame (h h' : heap) v :
  value_in h v -> frame h h' -> transitionTarget h' v = transitionTarget h v.
Proof.
  intros Hv Hfr. destruct v; try done. simpl in *.
  destruct (lookup_lt_is_Some_2 h r Hv) as [o Ho].
  destruct (Hfr r o Ho) as (o' & Ho' & Hu). rewrite Ho, Ho'. simpl.
  by rewrite (untouched_props _ _ Hu).
Qed.

Lemma scan_frame (h0 : heap) this decl sts (h : heap) :
  List.length h0 <= this -> this < List.length h -> frame h0 h ->
  frame h0 (scan this decl (sts, h)).2
  /\ List.length h <= List.length (scan this decl (sts, h)).2.
Proof.
  intros Hlo Hth Hfr.
  apply (scan_preserved (frame h0) (List.length h0)); try done.
  - intros. by apply frame_alter_new.
  - apply Forall_forall. intros kv _.
    apply setupChild_preserved.
    + intros. by apply frame_alloc.
    + intros. by apply frame_adopt.
    + intros. by apply frame_attach.
    + intros. by apply frame_alter_new.
    + intros. by apply frame_alter_new.
Qed.

(** An entry of [eventTransitions] survives the scan of properties with
    other names. *)
Lemma scan_keeps_entry this nm t decl :
  nm ∉ decl.*1 ->
  forall sts (h : heap) o,
    h !! this = Some o -> eventTransitions o !! nm = Some t ->
    exists o', (scan this decl (sts, h)).2 !! this = Some o'
               /\ eventTransitions o' !! nm = Some t.
Proof.
  induction decl as [|[k v] decl IH]; intros Hn sts h o Ho He; [by eauto|].
  rewrite scan_cons. rewrite fmap_cons in Hn. simpl in Hn.
  apply not_elem_of_cons in Hn as [Hne Hn].
  assert (exists o1, (scan_step setupChild this (sts, h) (k, v)).2 !! this = Some o1
                     /\ eventTransitions o1 !! nm = Some t) as (o1 & Ho1 & He1).
  { unfold scan_step. destruct (String.eqb k "constructor"); [by eauto|].
    destruct (truthy v); [|by eauto].
    set (h1 := if truthy (transitionTarget h v)
               then register this k (transitionTarget h v) h else h).
    assert (exists o1, h1 !! this = Some o1 /\ eventTransitions o1 !! nm = Some t)
      as (o1 & Ho1 & He1).
    { unfold h1. destruct (truthy (transitionTarget h v)); [|by eauto].
      unfold register. rewrite list_lookup_alter_eq, Ho. simpl.
      eexists. split; [done|]. simpl. by rewrite lookup_insert_ne. }
    clearbody h1.
    destruct (setupChild_frame v this sts k h1
                ltac:(by apply lookup_lt_Some in Ho1) this o1 Ho1)
      as (o2 & Ho2 & Hu).
    destruct (setupChild v this sts k h1) as [[res sts'] h2]. simpl in *.
    exists o2. split; [done|].
    by rewrite (untouched_eventTransitions _ _ Hu). }
  destruct (scan_step setupChild this (sts, h) (k, v)) as [sts1 h1].
  by apply (IH Hn sts1 h1 o1).
Qed.




(** * Further properties *)

(** ** Instances inside declarations *)

Lemma refs_in_VObj A fs :
  refs_in A (VObj fs) <-> Forall (fun kv => refs_in A kv.2) fs.
Proof.
  simpl. induction fs as [|kv fs IH]; [by split|].
  rewrite Forall_cons. by rewrite IH.
Qed.

Lemma refs_in_VClass A s d :
  refs_in A (VClass s d)
  <-> refs_in A s /\ Forall (fun kv => refs_in A kv.2) d.
Proof.
  simpl. apply and_iff_compat_l.
  induction d as [|kv d IH]; [by split|].
  rewrite Forall_cons. by rewrite IH.
Qed.

Lemma refs_in_True v : refs_in (fun _ => True) v.
Proof.
  induction v as [v Hobj Hcls|fs IH|s d IHs IHd] using value_nested_ind.
  - destruct v as [| | | | | |fs| | | | | |s d]; try done;
      [by destruct (Hobj fs)|by destruct (Hcls s d)].
  - by apply refs_in_VObj.
  - by apply refs_in_VClass.
Qed.

(** ** What init keeps on the states it is not run on *)

Section Above.

Variable P : heap -> Prop.
Variable lo : nat.
Variable A : nat -> Prop.

Hypothesis P_alloc : forall (h : heap) sts decl nm c,
  lo <= List.length h -> P h -> P (h ++ [blank sts decl nm c]).
Hypothesis P_adopt : forall (h : heap) this nm r, P h -> P (adopt this nm r h).
Hypothesis P_attach : forall (h : heap) this sts nm r,
  lo <= this -> this < List.length h -> A r \/ this < r ->
  P h -> P (attach this sts nm r h).2.
Hypothesis P_register : forall (h : heap) this nm t,
  lo <= this -> this < List.length h -> P h -> P (register this nm t h).
Hypothesis P_finish : forall (h : heap) this s,
  lo <= this -> this < List.length h -> P h ->
  P (alter (fun o => set_pathsCaches ∅ (set_states s o)) this h).

#[local] Abbreviation above := (preserved_above P lo).

Lemma scan_step_above k v :
  above v ->
  forall this sts (h : heap),
    lo <= this -> this < List.length h -> P h ->
    P (scan_step setupChild this (sts, h) (k, v)).2
    /\ List.length h
       <= List.length (scan_step setupChild this (sts, h) (k, v)).2.
Proof.
  intros Hv this sts h Hlo Hth HP. unfold scan_step.
  destruct (String.eqb k "constructor"); [done|].
  destruct (truthy v); [|done].
  set (h1 := if truthy (transitionTarget h v)
             then register this k (transitionTarget h v) h else h).
  assert (P h1 /\ List.length h1 = List.length h) as [HP1 Hl1].
  { unfold h1. destruct (truthy (transitionTarget h v)); [|done].
    split; [by apply P_register|]. unfold register. by rewrite length_alter. }
  clearbody h1.
  destruct (Hv this sts k h1) as [HP2 Hl2]; [lia..|done|].
  destruct (setupChild v this sts k h1) as [[res sts'] h2]. simpl in *.
  split; [done|lia].
Qed.

Lemma states_step_above k v :
  above v ->
  forall this sts (h : heap),
    lo <= this -> this < List.length h -> P h ->
    P (states_step setupChild this (sts, h) (k, v)).2
    /\ List.length h
       <= List.length (states_step setupChild this (sts, h) (k, v)).2.
Proof.
  intros Hv this sts h Hlo Hth HP. unfold states_step.
  destruct (Hv this sts k h) as [HP2 Hl2]; [lia..|done|].
  by destruct (setupChild v this sts k h) as [[res sts'] h2].
Qed.

Lemma scan_above decl :
  Forall (fun kv => above kv.2) decl ->
  forall this sts (h : heap),
    lo <= this -> this < List.length h -> P h ->
    P (scan this decl (sts, h)).2
    /\ List.length h <= List.length (scan this decl (sts, h)).2.
Proof.
  intros Hd this sts h Hlo Hth HP. apply (loop_preserved P _ this); [|done..].
  eapply Forall_impl; [exact Hd|]. intros [k v] Hv sts1 h1 Hth1 HP1.
  by apply scan_step_above.
Qed.

Lemma states_above fields :
  Forall (fun kv => above kv.2) fields ->
  forall this sts (h : heap),
    lo <= this -> this < List.length h -> P h ->
    P (fold_left (states_step setupChild this) fields (sts, h)).2
    /\ List.length h
       <= List.length (fold_left (states_step setupChild this) fields (sts, h)).2.
Proof.
  intros Hd this sts h Hlo Hth HP. apply (loop_preserved P _ this); [|done..].
  eapply Forall_impl; [exact Hd|]. intros [k v] Hv sts1 h1 Hth1 HP1.
  by apply states_step_above.
Qed.

Lemma init_above csts decl :
  (forall fs, csts = VObj fs -> Forall (fun kv => above kv.2) fs) ->
  Forall (fun kv => above kv.2) decl ->
  forall this (h : heap),
    lo <= this -> this < List.length h -> P h ->
    P (init this csts decl h)
    /\ List.length h <= List.length (init this csts decl h).
Proof.
  intros Hs Hd this h Hlo Hth HP. unfold init, init_with.
  assert (forall s (h' : heap), P h' -> List.length h <= List.length h' ->
            P (alter (fun o => set_pathsCaches ∅ (set_states s o)) this h')
            /\ List.length h
               <= List.length (alter (fun o => set_pathsCaches ∅ (set_states s o))
                                     this h')) as Hfin.
  { intros s h' HP' Hl. split; [apply P_finish; [done|lia|done]|].
    by rewrite length_alter. }
  destruct (truthy csts).
  - destruct csts; try by apply Hfin.
    destruct (states_above fields (Hs _ eq_refl) this fields h)
      as [HP1 Hl1]; [done..|].
    destruct (fold_left _ fields (fields, h)) as [s h1]. by apply Hfin.
  - destruct (scan_above decl Hd this [] h) as [HP1 Hl1]; [done..|].
    unfold scan in *.
    destruct (fold_left _ decl ([], h)) as [s h1]. by apply Hfin.
Qed.

Lemma setupChild_above_all v :
  (refs_in A v -> above v)
  /\ (forall fs, v = VObj fs -> refs_in A v ->
        Forall (fun kv => above kv.2) fs).
Proof.
  induction v as [v Hobj Hcls|fs IH|s d [_ IHs] IHd] using value_nested_ind.
  - split; [|intros fs ->; by destruct (Hobj fs)].
    intros Hr this sts nm h Hlo Hth HP.
    destruct (instanceof_State v) eqn:Hi.
    + destruct v; try done. rewrite setupChild_State.
      rewrite attach_length, adopt_length. split; [|done].
      apply P_attach; [done|by rewrite adopt_length|by left|].
      by apply P_adopt.
    + rewrite setupChild_malformed; [done..|].
      destruct v as [| | | | | | | | | | | |s d]; try done.
      by destruct (Hcls s d).
  - assert (refs_in A (VObj fs) -> Forall (fun kv => above kv.2) fs) as Hall.
    { intros Hr. apply refs_in_VObj in Hr.
      eapply Forall_impl; [apply Forall_and; split; [exact IH|exact Hr]|].
      intros kv [[H _] Hk]. by apply H. }
    split.
    + intros _ this sts nm h Hlo Hth HP. by simpl.
    + by intros fs' [= <-].
  - split; [|done].
    intros Hr this sts nm h Hlo Hth HP. apply refs_in_VClass in Hr as [Hrs Hrd].
    rewrite setupChild_Class, attach_length.
    assert (Forall (fun kv => above kv.2) d) as Hd.
    { eapply Forall_impl; [apply Forall_and; split; [exact IHd|exact Hrd]|].
      intros kv [[H _] Hk]. by apply H. }
    destruct (init_above s d (fun fs Hfs => IHs fs Hfs Hrs) Hd
                (List.length h)
                (h ++ [blank s d (Some nm) (container_of h this)]))
      as [HP1 Hl1]; [lia|rewrite length_app; simpl; lia|apply P_alloc; [lia|done]|].
    rewrite length_app in Hl1. simpl in Hl1.
    split; [|lia]. apply P_attach; [done|lia|right; lia|done].
Qed.

Lemma State_create_above csts decl (h : heap) :
  lo <= List.length h -> refs_in A csts ->
  Forall (fun kv => refs_in A kv.2) decl -> P h ->
  P (State_create csts decl h).2
  /\ List.length h < List.length (State_create csts decl h).2.
Proof.
  intros Hlo Hrs Hrd HP. unfold State_create. simpl.
  assert (Forall (fun kv => above kv.2) decl) as Hd.
  { eapply Forall_impl; [exact Hrd|]. intros kv. apply setupChild_above_all. }
  destruct (init_above csts decl
              (fun fs Hfs => proj2 (setupChild_above_all csts) fs Hfs Hrs) Hd
              (List.length h)
              (h ++ [blank csts decl
                       match obj_get "name" decl with
                       | VStr s => Some s
                       | _ => None
                       end (obj_get "container" decl)]))
    as [HP1 Hl1]; [done|rewrite length_app; simpl; lia|by apply P_alloc|].
  rewrite length_app in Hl1. simpl in Hl1. split; [done|lia].
Qed.

End Above.

(** ** What State.create leaves alone *)

Lemma memos_kept_refl (h : heap) : memos_kept h h.
Proof. intros x o Ho. by rewrite Ho. Qed.

Lemma memos_kept_alter (h0 h : heap) f r :
  (forall o, path_cache (f o) = path_cache o
             /\ isLeaf_cache (f o) = isLeaf_cache o) ->
  memos_kept h0 h -> memos_kept h0 (alter f r h).
Proof.
  intros Hf Hk x o Hx. destruct (decide (r = x)) as [->|Hne].
  - rewrite list_lookup_alter_eq in Hx.
    destruct (h !! x) as [o0|] eqn:Ho0; [|done]. injection Hx as <-.
    destruct (Hf o0) as [-> ->]. by apply Hk.
  - rewrite list_lookup_alter_ne in Hx by done. by apply Hk.
Qed.

Lemma memos_kept_alloc (h0 h : heap) sts decl nm c :
  List.length h0 <= List.length h ->
  memos_kept h0 h -> memos_kept h0 (h ++ [blank sts decl nm c]).
Proof.
  intros Hl Hk x o Hx. destruct (decide (x < List.length h)) as [Hlt|Hge].
  - rewrite lookup_app_l in Hx by done. by apply Hk.
  - rewrite lookup_app_r in Hx by lia.
    destruct (x - List.length h) as [|k] eqn:Hk'; [|by destruct k].
    injection Hx as <-. rewrite (lookup_ge_None_2 h0 x) by lia. done.
Qed.

Lemma State_create_memos_kept csts decl (h : heap) :
  memos_kept h (State_create csts decl h).2.
Proof.
  apply (State_create_preserved (memos_kept h) (List.length h)); try done.
  - intros. by apply memos_kept_alloc.
  - intros. unfold adopt. by do 2 (apply memos_kept_alter; [done|]).
  - intros. unfold attach. simpl. by do 2 (apply memos_kept_alter; [done|]).
  - intros. by apply memos_kept_alter.
  - intros. by apply memos_kept_alter.
  - apply memos_kept_refl.
Qed.

Lemma childStates_kept_refl (h : heap) : childStates_kept h h.
Proof. intros x o Ho. eauto. Qed.

Lemma childStates_kept_alter (h0 h : heap) f r :
  (forall o, childStates (f o) = childStates o) ->
  childStates_kept h0 h -> childStates_kept h0 (alter f r h).
Proof.
  intros Hf Hk x o Hx. destruct (Hk x o Hx) as (o' & Hx' & Hc).
  destruct (decide (r = x)) as [->|Hne].
  - exists (f o'). rewrite list_lookup_alter_eq, Hx'. split; [done|].
    by rewrite Hf.
  - exists o'. by rewrite list_lookup_alter_ne.
Qed.

Lemma childStates_kept_alter_new (h0 h : heap) f r :
  List.length h0 <= r ->
  childStates_kept h0 h -> childStates_kept h0 (alter f r h).
Proof.
  intros Hr Hk x o Hx. destruct (Hk x o Hx) as (o' & Hx' & Hc).
  apply lookup_lt_Some in Hx. exists o'.
  by rewrite list_lookup_alter_ne by lia.
Qed.

Lemma childStates_kept_alloc (h0 h : heap) o :
  childStates_kept h0 h -> childStates_kept h0 (h ++ [o]).
Proof.
  intros Hk x ox Hx. destruct (Hk x ox Hx) as (o' & Hx' & Hc).
  exists o'. split; [|done]. rewrite lookup_app_l; [done|].
  by apply lookup_lt_Some in Hx'.
Qed.

Lemma childStates_kept_attach (h0 h : heap) this sts nm r :
  List.length h0 <= this ->
  childStates_kept h0 h -> childStates_kept h0 (attach this sts nm r h).2.
Proof.
  intros Hth Hk. unfold attach. simpl.
  apply childStates_kept_alter_new; [done|].
  by apply childStates_kept_alter.
Qed.

(** The [init] of a new state changes no [childStates] of the states that
    were there before it. *)
Lemma init_childStates_kept csts decl (h : heap) o :
  childStates_kept h (init (List.length h) csts decl (h ++ [o])).
Proof.
  assert (forall v, preserved_above (childStates_kept h) (List.length h) v)
    as Hall.
  { intros v.
    apply (proj1 (setupChild_above_all (childStates_kept h) (List.length h)
                    (fun _ => True)
                    ltac:(intros; by apply childStates_kept_alloc)
                    ltac:(intros; unfold adopt;
                          by do 2 (apply childStates_kept_alter; [done|]))
                    ltac:(intros; by apply childStates_kept_attach)
                    ltac:(intros; by apply childStates_kept_alter)
                    ltac:(intros; by apply childStates_kept_alter)
                    v)).
    apply refs_in_True. }
  apply (init_above (childStates_kept h) (List.length h)); try done.
  - intros. by apply childStates_kept_alter.
  - intros. by apply childStates_kept_alter.
  - intros fs _. apply Forall_forall. intros kv _. apply Hall.
  - apply Forall_forall. intros kv _. apply Hall.
  - rewrite length_app. simpl. lia.
  - apply childStates_kept_alloc, childStates_kept_refl.
Qed.

Lemma State_create_childStates_kept csts decl (h : heap) :
  childStates_kept h (State_create csts decl h).2.
Proof. apply init_childStates_kept. Qed.


(** ** The children of a new state *)

Lemma childStates_of_alter (h : heap) f r x :
  (forall o, childStates (f o) = childStates o) ->
  childStates_of (alter f r h) x = childStates_of h x.
Proof.
  intros Hf. unfold childStates_of. destruct (decide (r = x)) as [->|Hne].
  - rewrite list_lookup_alter_eq. destruct (h !! x); simpl; [|done]. apply Hf.
  - by rewrite list_lookup_alter_ne.
Qed.

Lemma childStates_of_attach (h : heap) this sts nm r :
  this < List.length h ->
  childStates_of (attach this sts nm r h).2 this
  = childStates_of h this ++ [r].
Proof.
  intros Hth. unfold attach, childStates_of. simpl.
  rewrite list_lookup_alter_eq.
  destruct (lookup_lt_is_Some_2 h this Hth) as [o Ho].
  destruct (decide (r = this)) as [->|Hne].
  - by rewrite list_lookup_alter_eq, Ho.
  - by rewrite list_lookup_alter_ne, Ho.
Qed.

Lemma init_grows this csts decl (h : heap) :
  this < List.length h -> List.length h <= List.length (init this csts decl h).
Proof.
  intros Hth.
  assert (forall l : jsobj,
            Forall (fun kv => preserved_by (fun _ => True) 0 kv.2) l) as Hall.
  { intros l. apply Forall_forall. intros kv _.
    by apply setupChild_preserved. }
  by apply (init_preserved (fun _ => True) 0); try done; try lia.
Qed.

(** setupChild appends the child it attaches, and nothing else, to the
    [childStates] of the state it is called on. *)
Lemma setupChild_child v this sts nm (h : heap) :
  this < List.length h ->
  childStates_of (setupChild v this sts nm h).2 this
  = childStates_of h this ++ new_child h v.
Proof.
  intros Hth. destruct v as [| | | | | | | | | | |r|s d];
    try (rewrite setupChild_malformed by done; simpl; by rewrite app_nil_r).
  - rewrite setupChild_State, childStates_of_attach
      by (by rewrite adopt_length).
    unfold adopt. by rewrite !childStates_of_alter.
  - rewrite setupChild_Class.
    set (o := blank s d (Some nm) (container_of h this)).
    pose proof (init_childStates_kept s d h o) as Hk.
    pose proof (init_grows (List.length h) s d (h ++ [o])
                  ltac:(rewrite length_app; simpl; lia)) as Hl.
    rewrite length_app in Hl. simpl in Hl.
    rewrite childStates_of_attach by lia. simpl. f_equal.
    destruct (lookup_lt_is_Some_2 h this Hth) as [ot Hot].
    destruct (Hk this ot Hot) as (ot' & Hot' & Hc).
    unfold childStates_of. by rewrite Hot, Hot'.
Qed.

Lemma new_child_not_child (h : heap) v :
  is_child_value v = false -> new_child h v = [].
Proof. by destruct v. Qed.

Lemma new_child_child_of (h : heap) k v :
  is_child_value v = true ->
  exists r, new_child h v = [r] /\ child_of (List.length h) r (k, v).
Proof.
  destruct v; try done; intros _; eexists; (split; [reflexivity|]);
    unfold child_of; simpl; [done|lia].
Qed.

Lemma child_of_mono lo lo' r kv :
  lo <= lo' -> child_of lo' r kv -> child_of lo r kv.
Proof. destruct kv as [k []]; unfold child_of; simpl; try done. lia. Qed.

Lemma scan_step_children this k v sts (h : heap) :
  this < List.length h ->
  childStates_of (scan_step setupChild this (sts, h) (k, v)).2 this
  = childStates_of h this
    ++ (if decide (k <> "constructor" /\ is_child_value v = true)
        then new_child h v else [])
  /\ List.length h
     <= List.length (scan_step setupChild this (sts, h) (k, v)).2.
Proof.
  intros Hth. unfold scan_step.
  destruct (String.eqb_spec k "constructor") as [->|Hk].
  { rewrite decide_False by tauto. by rewrite app_nil_r. }
  destruct (truthy v) eqn:Hv.
  2:{ destruct (falsy_not_State v Hv) as [Hi Hd].
      rewrite decide_False; [by rewrite app_nil_r|].
      unfold is_child_value. rewrite Hi, Hd. by intros [_ ?]. }
  set (h1 := if truthy (transitionTarget h v)
             then register this k (transitionTarget h v) h else h).
  assert (childStates_of h1 this = childStates_of h this
          /\ List.length h1 = List.length h) as [Hc1 Hl1].
  { unfold h1. destruct (truthy (transitionTarget h v)); [|done].
    unfold register. by rewrite childStates_of_alter, length_alter. }
  assert (new_child h1 v = new_child h v) as Hn1
    by (destruct v; simpl; by rewrite ?Hl1).
  clearbody h1.
  pose proof (setupChild_child v this sts k h1 ltac:(lia)) as Hc.
  pose proof (setupChild_grows v this sts k h1 ltac:(lia)) as Hg.
  destruct (setupChild v this sts k h1) as [[res sts'] h2]. simpl in *.
  rewrite Hc, Hc1, Hn1. split; [|lia]. f_equal.
  destruct (is_child_value v) eqn:Hcv.
  - by rewrite decide_True.
  - rewrite decide_False by (by intros [_ ?]). by apply new_child_not_child.
Qed.

Lemma scan_children this decl :
  forall sts (h : heap),
    this < List.length h ->
    exists children,
      childStates_of (scan this decl (sts, h)).2 this
      = childStates_of h this ++ children
      /\ Forall2 (child_of (List.length h)) children (child_entries decl)
      /\ List.length h <= List.length (scan this decl (sts, h)).2.
Proof.
  induction decl as [|[k v] decl IH]; intros sts h Hth.
  { exists []. rewrite app_nil_r. by repeat split. }
  rewrite scan_cons.
  destruct (scan_step_children this k v sts h Hth) as [Hc Hl].
  destruct (scan_step setupChild this (sts, h) (k, v)) as [sts1 h1].
  simpl in *.
  destruct (IH sts1 h1 ltac:(lia)) as (cs & Hcs & Hf & Hl').
  unfold child_entries. rewrite filter_cons. simpl.
  assert (Forall2 (child_of (List.length h)) cs (child_entries decl)) as Hf'.
  { eapply Forall2_impl; [exact Hf|]. intros r kv. by apply child_of_mono. }
  destruct (decide (k <> "constructor" /\ is_child_value v = true))
    as [[Hk Hv]|Hno].
  - destruct (new_child_child_of h k v Hv) as (r & Hr & Hch).
    exists (r :: cs). rewrite Hcs, Hc, Hr, <-app_assoc.
    split; [done|]. split; [by constructor|lia].
  - exists cs. rewrite Hcs, Hc, app_nil_r. split; [done|]. split; [done|lia].
Qed.

Lemma states_step_children this k v sts (h : heap) :
  this < List.length h ->
  childStates_of (states_step setupChild this (sts, h) (k, v)).2 this
  = childStates_of h this ++ new_child h v
  /\ List.length h
     <= List.length (states_step setupChild this (sts, h) (k, v)).2.
Proof.
  intros Hth. unfold states_step.
  pose proof (setupChild_child v this sts k h Hth) as Hc.
  pose proof (setupChild_grows v this sts k h Hth) as Hg.
  by destruct (setupChild v this sts k h) as [[res sts'] h2].
Qed.

Lemma states_children this fields :
  forall sts (h : heap),
    this < List.length h ->
    exists children,
      childStates_of (fold_left (states_step setupChild this) fields (sts, h)).2
                     this
      = childStates_of h this ++ children
      /\ Forall2 (child_of (List.length h)) children (states_entries fields).
Proof.
  induction fields as [|[k v] fields IH]; intros sts h Hth.
  { exists []. rewrite app_nil_r. by split. }
  change (fold_left (states_step setupChild this) ((k, v) :: fields) (sts, h))
    with (fold_left (states_step setupChild this) fields
            (states_step setupChild this (sts, h) (k, v))).
  destruct (states_step_children this k v sts h Hth) as [Hc Hl].
  destruct (states_step setupChild this (sts, h) (k, v)) as [sts1 h1].
  cbn [snd] in Hc, Hl.
  destruct (IH sts1 h1 ltac:(lia)) as (cs & Hcs & Hf).
  unfold states_entries. rewrite filter_cons. simpl.
  assert (Forall2 (child_of (List.length h)) cs (states_entries fields)) as Hf'.
  { eapply Forall2_impl; [exact Hf|]. intros r kv. by apply child_of_mono. }
  destruct (decide (is_child_value v = true)) as [Hv|Hno].
  - destruct (new_child_child_of h k v Hv) as (r & Hr & Hch).
    exists (r :: cs). rewrite Hcs, Hc, Hr, <-app_assoc.
    split; [done|]. by constructor.
  - exists cs. rewrite Hcs, Hc, new_child_not_child, app_nil_r;
      [done|by destruct (is_child_value v)].
Qed.

(** What [init] appends to the [childStates] of the state it runs on. *)
Lemma init_children this csts decl (h : heap) :
  this < List.length h ->
  exists children,
    childStates_of (init this csts decl h) this
    = childStates_of h this ++ children
    /\ Forall2 (child_of (List.length h)) children
               (declared_children csts decl).
Proof.
  intros Hth. unfold declared_children. destruct (truthy csts) eqn:Hs.
  - unfold init, init_with. rewrite Hs.
    destruct csts as [| | | | | |fields| | | | | |];
      try (exists []; rewrite childStates_of_alter, app_nil_r by done;
           split; [done|constructor]).
    destruct (states_children this fields fields h Hth) as (cs & Hcs & Hf).
    destruct (fold_left _ fields (fields, h)) as [s h1]. simpl in *.
    exists cs. by rewrite childStates_of_alter.
  - rewrite init_scans by done. unfold finish.
    destruct (scan_children this decl [] h Hth) as (cs & Hcs & Hf & _).
    exists cs. by rewrite childStates_of_alter.
Qed.

Lemma State_create_init csts decl (h : heap) :
  exists o,
    (State_create csts decl h).2 = init (List.length h) csts decl (h ++ [o])
    /\ childStates o = [].
Proof. eexists. split; [reflexivity|done]. Qed.





(** ** Parent chains end *)

Lemma parents_ordered_alter (h0 h : heap) f r :
  (forall o, parentState (f o) = parentState o) ->
  parents_ordered h0 h -> parents_ordered h0 (alter f r h).
Proof.
  intros Hf Hord c oc p Hc Hp. rewrite length_alter.
  destruct (decide (r = c)) as [->|Hne].
  - rewrite list_lookup_alter_eq in Hc.
    destruct (h !! c) as [o0|] eqn:Ho0; [|done]. injection Hc as <-.
    rewrite Hf in Hp. by apply (Hord c o0).
  - rewrite list_lookup_alter_ne in Hc by done. by apply (Hord c oc).
Qed.

Lemma parents_ordered_alloc (h0 h : heap) o :
  parentState o = None ->
  parents_ordered h0 h -> parents_ordered h0 (h ++ [o]).
Proof.
  intros Ho Hord c oc p Hc Hp. rewrite length_app. simpl.
  destruct (decide (c < List.length h)) as [Hlt|Hge].
  - rewrite lookup_app_l in Hc by done.
    destruct (Hord c oc p Hc Hp) as [Hlt' Hcases]. split; [lia|done].
  - rewrite lookup_app_r in Hc by lia.
    destruct (c - List.length h) as [|k]; [|by destruct k].
    injection Hc as <-. congruence.
Qed.

Lemma parents_ordered_attach (h0 h : heap) this sts nm r :
  List.length h0 <= this -> this < List.length h ->
  r < List.length h0 \/ this < r ->
  parents_ordered h0 h -> parents_ordered h0 (attach this sts nm r h).2.
Proof.
  intros Hlo Hth Hr Hord. unfold attach. simpl.
  apply parents_ordered_alter; [done|].
  intros c oc p Hc Hp. rewrite length_alter.
  destruct (decide (r = c)) as [->|Hne].
  - rewrite list_lookup_alter_eq in Hc.
    destruct (h !! c) as [o0|] eqn:Ho0; [|done]. injection Hc as <-.
    simpl in Hp. injection Hp as <-. split; [done|].
    destruct Hr as [Hr|Hr]; [left|right]; split; auto.
  - rewrite list_lookup_alter_ne in Hc by done. by apply (Hord c oc).
Qed.

Lemma parents_ordered_refl (h : heap) : chains_end h -> parents_ordered h h.
Proof.
  intros Hce c oc p Hc Hp.
  destruct (Hce c ltac:(by apply lookup_lt_Some in Hc)) as [l Hl].
  inversion Hl as [n o Ho Hpo|n o q l' Ho Hpo Hq]; subst;
    rewrite Hc in Ho; injection Ho as <-; [congruence|].
  rewrite Hp in Hpo. injection Hpo as <-.
  split.
  - inversion Hq as [? ? Hx|? ? ? ? Hx]; by apply lookup_lt_Some in Hx.
  - left. split; [by apply lookup_lt_Some in Hc|].
    right. by rewrite Hc, <-Hp.
Qed.

Lemma chains_end_grown (h0 h : heap) :
  chains_end h0 -> parents_ordered h0 h -> List.length h0 <= List.length h ->
  chains_end h.
Proof.
  intros Hce Hord Hlen.
  assert (forall c, List.length h0 <= c -> c < List.length h ->
                    exists l, ancestry h c l) as Hnew.
  { intros c. induction c as [c IH] using lt_wf_ind. intros Hlo Hc.
    destruct (lookup_lt_is_Some_2 h c Hc) as [o Ho].
    destruct (parentState o) as [p|] eqn:Hp.
    - destruct (Hord c o p Ho Hp) as [Hpl [[Hlt _]|[Hlop Hpc]]]; [lia|].
      destruct (IH p Hpc Hlop Hpl) as [l Hl].
      exists (c :: l). by eapply ancestry_parent.
    - exists [c]. by eapply ancestry_root. }
  intros c Hc. destruct (decide (c < List.length h0)) as [Hold|Hn];
    [|apply Hnew; lia].
  destruct (Hce c Hold) as [l0 Hl0]. clear Hold.
  induction Hl0 as [n o0 Ho0 Hp0|n o0 p0 l0 Ho0 Hp0 Hl0 IH].
  - destruct (lookup_lt_is_Some_2 h n Hc) as [o Ho].
    destruct (parentState o) as [p|] eqn:Hp.
    + destruct (Hord n o p Ho Hp) as [Hpl [[_ [Hlop|Hsame]]|[Hlop Hpc]]].
      * destruct (Hnew p Hlop Hpl) as [l Hl].
        exists (n :: l). by eapply ancestry_parent.
      * rewrite Ho0 in Hsame. simpl in Hsame. congruence.
      * apply lookup_lt_Some in Ho0. lia.
    + exists [n]. by eapply ancestry_root.
  - destruct (lookup_lt_is_Some_2 h n Hc) as [o Ho].
    destruct (parentState o) as [p|] eqn:Hp.
    + destruct (Hord n o p Ho Hp) as [Hpl [[_ [Hlop|Hsame]]|[Hlop Hpc]]].
      * destruct (Hnew p Hlop Hpl) as [l Hl].
        exists (n :: l). by eapply ancestry_parent.
      * rewrite Ho0 in Hsame. simpl in Hsame.
        assert (p = p0) as -> by congruence.
        destruct (IH Hpl) as [l Hl].
        exists (n :: l). by eapply ancestry_parent.
      * apply lookup_lt_Some in Ho0. lia.
    + exists [n]. by eapply ancestry_root.
Qed.

Lemma State_create_parents_ordered csts decl (h : heap) :
  chains_end h ->
  refs_in (fun r => r < List.length h) csts ->
  Forall (fun kv => refs_in (fun r => r < List.length h) kv.2) decl ->
  parents_ordered h (State_create csts decl h).2.
Proof.
  intros Hce Hs Hd.
  apply (State_create_above (parents_ordered h) (List.length h)
           (fun r => r < List.length h)); try done.
  - intros. by apply parents_ordered_alloc.
  - intros. unfold adopt. by do 2 (apply parents_ordered_alter; [done|]).
  - intros. by apply parents_ordered_attach.
  - intros. by apply parents_ordered_alter.
  - intros. by apply parents_ordered_alter.
  - by apply parents_ordered_refl.
Qed.


Lemma chains_end_lone_state : chains_end lone_state.
Proof.
  intros n Hn. destruct n as [|n]; [|simpl in Hn; lia].
  exists [0]. eapply ancestry_root; reflexivity.
Qed.


Lemma ancestry_NoDup (h : heap) n l : ancestry h n l -> NoDup l.
Proof.
  induction 1 as [n o Ho Hp|n o p l Ho Hp Hl IH].
  - apply NoDup_singleton.
  - apply NoDup_cons. split; [|done].
    by apply (ancestry_acyclic h), (ancestry_parent h n o p l).
Qed.

(** A parent chain is no longer than the store. *)
Lemma ancestry_length (h : heap) n l :
  ancestry h n l -> List.length l <= List.length h.
Proof.
  intros Ha. trans (List.length (seq 0 (List.length h)));
    [|by rewrite length_seq].
  apply submseteq_length, NoDup_submseteq; [by eapply ancestry_NoDup|].
  intros x Hx. apply elem_of_seq.
  pose proof (ancestry_exists h n l Ha) as Hex.
  destruct (proj1 (Forall_forall _ _) Hex x Hx) as [o Ho].
  apply lookup_lt_Some in Ho. lia.
Qed.

Lemma get_path_returns (h : heap) n l :
  ancestry h n l ->
  forall fuel, List.length l <= fuel -> is_Some (get_path fuel h n).
Proof.
  induction 1 as [n o Ho Hp|n o p l Ho Hp Hl IH]; intros fuel Hf;
    simpl in Hf; (destruct fuel as [|fuel]; [lia|]);
    cbn [get_path]; rewrite Ho; simpl;
    (destruct (path_cache o); [by eauto|]); rewrite Hp; simpl.
  - rewrite Ho. simpl. eauto.
  - destruct (IH fuel ltac:(lia)) as [[pp h1] Hg]. rewrite Hg. simpl.
    destruct (get_path_writes_memos _ _ _ _ _ Hg n o Ho) as [c Hn].
    rewrite Hn. simpl. eauto.
Qed.

(** X5: in a store where every parent chain ends, lookupEventTransition
    and the read of [path] return on every state, every event name and
    whatever is kept, within as many steps up the chain as the store has
    states. *)
Theorem lookup_and_path_return (h : heap) (n : ref) (nm : string) :
  chains_end h -> n < List.length h ->
  is_Some (lookupEventTransition (List.length h) h n nm)
  /\ is_Some (get_path (List.length h) h n).
Proof.
  intros Hce Hn. destruct (Hce n Hn) as [l Hl].
  pose proof (ancestry_length h n l Hl) as Hlen. split.
  - unfold lookupEventTransition.
    rewrite (lookup_loop_chain h nm n l Hl) by done. eauto.
  - by apply (get_path_returns h n l).
Qed.

Lemma chains_end_nested_tree : chains_end nested_tree.
Proof.
  intros n Hn.
  do 4 (destruct n as [|n];
        [eexists;
         repeat first [by eapply ancestry_root
                      |eapply ancestry_parent; [reflexivity..|]]|]).
  simpl in Hn. lia.
Qed.

Lemma lookup_and_path_return_witness :
  is_Some (lookupEventTransition 4 nested_tree 1 "go")
  /\ is_Some (get_path 4 nested_tree 1).
Proof.
  apply (lookup_and_path_return nested_tree 1 "go").
  - exact chains_end_nested_tree.
  - simpl. lia.
Defined.

(** ** A chain that does not end *)

Lemma lookup_loop_self (h : heap) nm r o :
  h !! r = Some o -> parentState o = Some r ->
  truthy (dict_get VUndefined nm (eventTransitions o)) = false ->
  forall fuel path, truthy path = false ->
    lookup_loop fuel h nm (Some r) path = None.
Proof.
  intros Ho Hp He fuel. induction fuel as [|fuel IH]; intros path Hpath;
    simpl; rewrite Hpath; [done|].
  rewrite Ho. simpl. rewrite Hp. by apply IH.
Qed.



(** ** An explicit states object *)

Lemma frame_trans (h1 h2 h3 : heap) : frame h1 h2 -> frame h2 h3 -> frame h1 h3.
Proof.
  intros H12 H23 r o Ho. destruct (H12 r o Ho) as (o2 & Ho2 & Hu2).
  destruct (H23 r o2 Ho2) as (o3 & Ho3 & Hu3).
  exists o3. split; [done|]. by eapply untouched_trans.
Qed.

Lemma states_loop_frame this fields sts (h : heap) :
  this < List.length h ->
  frame h (fold_left (states_step setupChild this) fields (sts, h)).2.
Proof.
  intros Hth.
  apply (loop_preserved (frame h) (states_step setupChild this) this);
    [|done|apply frame_refl].
  apply Forall_forall. intros [k v] _ sts1 h1 Hth1 Hfr. unfold states_step.
  pose proof (setupChild_frame v this sts1 k h1 Hth1) as Hf.
  pose proof (setupChild_grows v this sts1 k h1 Hth1) as Hg.
  destruct (setupChild v this sts1 k h1) as [[res sts'] h2]. simpl in *.
  split; [by eapply frame_trans|done].
Qed.

(** X7: with a truthy [states] in the declaration [init] does not scan the
    declared properties: the [eventTransitions] of the new state are the
    declared ones (none without a declared object), so a property made
    with [State.transitionTo] is not registered as an event transition. *)
Theorem explicit_states_register_nothing (csts : value) (decl : jsobj)
  (h : heap) :
  truthy csts = true ->
  eventTransitions <$> (State_create csts decl h).2 !! List.length h
  = Some (declared_eventTransitions decl).
Proof.
  intros Hs. unfold State_create, init, init_with. simpl. rewrite Hs.
  set (o := blank csts decl _ _).
  assert (List.length h < List.length (h ++ [o])) as Hth
    by (rewrite length_app; simpl; lia).
  assert ((h ++ [o]) !! List.length h = Some o) as Ho
    by (by rewrite lookup_app_r, Nat.sub_diag by lia).
  destruct csts as [| | | | | |fields| | | | | |];
    try (by rewrite list_lookup_alter_eq, Ho).
  destruct (states_loop_frame (List.length h) fields fields (h ++ [o]) Hth
              _ _ Ho) as (o' & Ho' & Hu).
  destruct (fold_left _ fields (fields, h ++ [o])) as [s h1]. simpl in *.
  rewrite list_lookup_alter_eq, Ho'. simpl.
  by rewrite (untouched_eventTransitions _ _ Hu).
Qed.

Lemma explicit_states_register_nothing_witness :
  eventTransitions <$> explicit_states_tree !! 0 = Some ∅.
Proof.
  apply (explicit_states_register_nothing
           (VObj [("a", VClass VUndefined [])])
           [("go", State_transitionTo "x")] []).
  reflexivity.
Defined.

(** ** Paths caches of different keys and states *)



(** ** trigger on declared properties *)


Lemma named_like_events_lookup :
  exists o, named_like_events !! 1 = Some o
            /\ obj_get "go" (props o) = VTransitionFn "next"
            /\ obj_get "enter" (props o) = VState 0
            /\ listeners o = [("enter", 20); ("go", 21)].
Proof. eexists. split; [reflexivity|]. repeat split. Qed.




(** ** A path that was read *)

Lemma get_path_memoizes fuel (h h1 : heap) n p :
  get_path fuel h n = Some (p, h1) ->
  exists o1, h1 !! n = Some o1 /\ path_cache o1 = Some p.
Proof.
  destruct fuel as [|fuel]; [done|]. cbn [get_path].
  destruct (h !! n) as [o|] eqn:Ho; [|done]. simpl.
  destruct (path_cache o) as [c|] eqn:Hc.
  - intros [= <- <-]. eauto.
  - destruct (match parentState o with
              | Some q => get_path fuel h q
              | None => Some (None, h)
              end) as [[pp h']|]; [|done]. simpl.
    destruct (h' !! n) as [o'|] eqn:Ho'; [|done]. simpl.
    intros [= <- <-]. rewrite list_lookup_alter_eq, Ho'. simpl. eauto.
Qed.

(** X11: [path] is computed once.  After a read of [path] on a state every
    later read returns the same path, in one step and without change of
    the store, also after setupChild has attached states, even when it
    has given the state itself another name and parent. *)
Theorem path_is_computed_once (fuel : nat) (h h1 : heap) (n : ref)
  (p : option string) :
  get_path fuel h n = Some (p, h1) ->
  (forall fuel', get_path (S fuel') h1 n = Some (p, h1)) /\
  (forall v parent sts nm fuel',
     parent < List.length h1 ->
     fst <$> get_path (S fuel') (setupChild v parent sts nm h1).2 n = Some p).
Proof.
  intros Hg. destruct (get_path_memoizes _ _ _ _ _ Hg) as (o1 & Ho1 & Hc1).
  split.
  - intros fuel'. cbn [get_path]. rewrite Ho1. simpl. by rewrite Hc1.
  - intros v parent sts nm fuel' Hp.
    destruct (setupChild_frame v parent sts nm h1 Hp n o1 Ho1)
      as (o2 & Ho2 & Hu).
    cbn [get_path]. rewrite Ho2. simpl.
    by rewrite (untouched_path_cache _ _ Hu), Hc1.
Qed.

Lemma path_is_computed_once_witness :
  name_of renamed_after_read 0 = Some "other"
  /\ fst <$> get_path 1 renamed_after_read 0 = Some (Some "a.b.n").
Proof.
  split; [reflexivity|].
  destruct (get_path 4 nested_tree 0) as [[p h1]|] eqn:Hg; [|discriminate].
  assert (p = Some "a.b.n") as -> by (vm_compute in Hg; congruence).
  assert (renamed_after_read = (setupChild (VState 0) 3 [] "other" h1).2)
    as -> by (unfold renamed_after_read; by rewrite Hg).
  apply (proj2 (path_is_computed_once 4 nested_tree h1 0 (Some "a.b.n") Hg)).
  destruct (get_path_writes_memos _ _ _ _ _ Hg 3 _ eq_refl) as [c Hc].
  by apply lookup_lt_Some in Hc.
Defined.

(** ** A declared transition, looked up *)

Lemma State_create_entry (h : heap) (sts : value) (decl : jsobj)
  (nm : string) (v t : value) :
  truthy sts = false -> NoDup decl.*1 -> (nm, v) ∈ decl ->
  nm <> "constructor" -> truthy v = true -> value_in h v ->
  transitionTarget h v = t -> truthy t = true ->
  exists o, (State_create sts decl h).2 !! List.length h = Some o
            /\ eventTransitions o !! nm = Some t.
Proof.
  intros Hs Hnd Hin Hc Hv Hvin Ht Htt.
  apply list_elem_of_split in Hin as (l1 & l2 & ->).
  rewrite fmap_app, fmap_cons in Hnd. simpl in Hnd.
  apply NoDup_app in Hnd as (_ & _ & Hnd). apply NoDup_cons in Hnd as [Hnm _].
  set (this := List.length h) in *.
  unfold State_create. simpl. fold this.
  set (h0 := h ++ [blank sts (l1 ++ (nm, v) :: l2) _ _]).
  assert (frame h h0) as Hfr0 by (apply frame_alloc, frame_refl).
  assert (this < List.length h0) as Hth0
    by (unfold h0, this; rewrite length_app; simpl; lia).
  destruct (scan_frame h this l1 [] h0 ltac:(done) Hth0 Hfr0) as [Hfr1 Hl1].
  assert (transitionTarget (scan this l1 ([], h0)).2 v = t) as Ht1
    by (by rewrite (transitionTarget_frame h)).
  rewrite init_scans, scan_app, scan_cons by done.
  destruct (scan this l1 ([], h0)) as [sts1 h1]. simpl in *.
  unfold scan_step. apply String.eqb_neq in Hc. rewrite Hc, Hv, Ht1, Htt.
  destruct (lookup_lt_is_Some_2 h1 this ltac:(lia)) as [o1 Ho1].
  set (h2 := register this nm t h1).
  assert (h2 !! this
          = Some (set_eventTransitions (<[nm := t]> (eventTransitions o1)) o1))
    as Ho2 by (unfold h2, register; by rewrite list_lookup_alter_eq, Ho1).
  destruct (setupChild_frame v this sts1 nm h2
              ltac:(by apply lookup_lt_Some in Ho2) this _ Ho2)
    as (o3 & Ho3 & Hu).
  destruct (setupChild v this sts1 nm h2) as [[res sts3] h3]. simpl in *.
  destruct (scan_keeps_entry this nm t l2 Hnm sts3 h3 o3 Ho3) as (o4 & Ho4 & He4).
  { rewrite (untouched_eventTransitions _ _ Hu). simpl.
    by rewrite lookup_insert_eq. }
  unfold finish. rewrite list_lookup_alter_eq, Ho4. simpl. eauto.
Qed.

Lemma lookup_own_entry (h : heap) this o nm t fuel :
  h !! this = Some o -> eventTransitions o !! nm = Some t ->
  truthy t = true ->
  lookupEventTransition (S fuel) h this nm = Some t.
Proof.
  intros Ho He Ht. unfold lookupEventTransition. simpl. rewrite Ho. simpl.
  unfold dict_get. rewrite He. simpl.
  destruct (parentState o), fuel; simpl; by rewrite ?Ht.
Qed.



(** ** The states mapping of a new state *)

Lemma obj_get_set_eq k v (o : jsobj) : obj_get k (obj_set k v o) = v.
Proof.
  induction o as [|[k' v'] o IH]; simpl.
  - by rewrite String.eqb_refl.
  - destruct (String.eqb_spec k k') as [->|Hne]; simpl.
    + by rewrite String.eqb_refl.
    + by destruct (String.eqb_spec k k').
Qed.

Lemma obj_get_set_ne k k' v (o : jsobj) :
  k <> k' -> obj_get k (obj_set k' v o) = obj_get k o.
Proof.
  intros Hne. induction o as [|[k'' v''] o IH]; simpl.
  - by destruct (String.eqb_spec k k').
  - destruct (String.eqb_spec k' k'') as [->|Hne']; simpl.
    + by destruct (String.eqb_spec k k'').
    + by destruct (String.eqb_spec k k'').
Qed.

(** What setupChild returns and what it leaves in the [states] object. *)
Lemma setupChild_result v this sts nm (h : heap) :
  (setupChild v this sts nm h).1
  = match new_child h v with
    | r :: _ => (VState r, obj_set nm (VState r) sts)
    | [] => (if truthy v then VUndefined else VBool false, sts)
    end.
Proof.
  destruct v as [| | | | | | | | | | |r|s d];
    try (rewrite setupChild_malformed by done); reflexivity.
Qed.

Lemma scan_step_states this k v sts (h : heap) :
  (scan_step setupChild this (sts, h) (k, v)).1
  = if decide (k <> "constructor" /\ is_child_value v = true)
    then match new_child h v with
         | r :: _ => obj_set k (VState r) sts
         | [] => sts
         end
    else sts.
Proof.
  unfold scan_step.
  destruct (String.eqb_spec k "constructor") as [->|Hk].
  { by rewrite decide_False by tauto. }
  destruct (truthy v) eqn:Hv.
  2:{ destruct (falsy_not_State v Hv) as [Hi Hd].
      rewrite decide_False; [done|].
      unfold is_child_value. rewrite Hi, Hd. by intros [_ ?]. }
  set (h1 := if truthy (transitionTarget h v)
             then register this k (transitionTarget h v) h else h).
  assert (new_child h1 v = new_child h v) as Hn1.
  { unfold h1. destruct (truthy (transitionTarget h v)); [|done].
    unfold register. destruct v; simpl; by rewrite ?length_alter. }
  clearbody h1.
  pose proof (setupChild_result v this sts k h1) as Hr. rewrite Hn1 in Hr.
  destruct (setupChild v this sts k h1) as [[res sts'] h2]. simpl in *.
  destruct (is_child_value v) eqn:Hcv.
  - rewrite decide_True by done.
    destruct (new_child h v); by injection Hr as _ ->.
  - rewrite decide_False by (by intros [_ ?]).
    rewrite (new_child_not_child h v Hcv) in Hr. by injection Hr as _ ->.
Qed.

Lemma scan_states_other this decl k :
  k ∉ decl.*1 ->
  forall sts (h : heap),
    obj_get k (scan this decl (sts, h)).1 = obj_get k sts.
Proof.
  induction decl as [|[k' v] decl IH]; intros Hk sts h; [done|].
  rewrite fmap_cons in Hk. simpl in Hk.
  apply not_elem_of_cons in Hk as [Hne Hk].
  rewrite scan_cons.
  pose proof (scan_step_states this k' v sts h) as Hs.
  destruct (scan_step setupChild this (sts, h) (k', v)) as [sts1 h1].
  simpl in Hs. rewrite (IH Hk sts1 h1), Hs.
  destruct (decide _); [|done].
  destruct (new_child h v); [done|]. by apply obj_get_set_ne.
Qed.

Lemma scan_states_entry this decl :
  NoDup decl.*1 ->
  forall sts (h : heap) k v,
    this < List.length h -> obj_get k sts = VUndefined -> (k, v) ∈ decl ->
    (k <> "constructor" -> is_child_value v = true ->
       exists r, obj_get k (scan this decl (sts, h)).1 = VState r
                 /\ child_of (List.length h) r (k, v)) /\
    (k = "constructor" \/ is_child_value v = false ->
       obj_get k (scan this decl (sts, h)).1 = VUndefined).
Proof.
  induction decl as [|[k' v'] decl IH]; intros Hnd sts h k v Hth Hu Hin;
    [by apply elem_of_nil in Hin|].
  rewrite fmap_cons in Hnd. simpl in Hnd. apply NoDup_cons in Hnd as [Hk' Hnd].
  rewrite scan_cons.
  pose proof (scan_step_states this k' v' sts h) as Hs.
  destruct (scan_step_children this k' v' sts h Hth) as [_ Hl].
  destruct (scan_step setupChild this (sts, h) (k', v')) as [sts1 h1].
  simpl in Hs, Hl.
  apply elem_of_cons in Hin as [[= -> ->]|Hin].
  - rewrite (scan_states_other this decl k' Hk' sts1 h1), Hs. split.
    + intros Hc Hv. rewrite decide_True by done.
      destruct (new_child_child_of h k' v' Hv) as (r & -> & Hch).
      exists r. by rewrite obj_get_set_eq.
    + intros Hno. rewrite decide_False; [done|].
      intros [Hc Hv]. destruct Hno as [?|Hno]; [done|congruence].
  - assert (k <> k') as Hne.
    { intros ->. apply Hk'. apply list_elem_of_fmap. by exists (k', v). }
    assert (obj_get k sts1 = VUndefined) as Hu1.
    { rewrite Hs. destruct (decide _); [|done].
      destruct (new_child h v'); [done|]. by rewrite obj_get_set_ne. }
    destruct (IH Hnd sts1 h1 k v ltac:(lia) Hu1 Hin) as [Hyes Hno].
    split; [|done].
    intros Hc Hv. destruct (Hyes Hc Hv) as (r & Hr & Hch).
    exists r. split; [done|]. by eapply child_of_mono.
Qed.


Lemma mixed_declaration_NoDup : NoDup mixed_declaration.*1.
Proof.
  repeat (apply NoDup_cons; split;
          [intros H; repeat (apply elem_of_cons in H as [H|H];
                             [discriminate H|]);
           by apply elem_of_nil in H|]).
  apply NoDup_nil_2.
Qed.


(** ** Several cache writes *)

Lemma getPathsCache_all_other (guidFor : nat -> string) this ops m q
  (h : heap) o :
  h !! this = Some o ->
  (guidFor (constructor m), q) ∉ cache_key guidFor <$> ops ->
  fst <$> getPathsCache guidFor this m q (setPathsCache_all guidFor this ops h)
  = fst <$> getPathsCache guidFor this m q h.
Proof.
  revert h o. induction ops as [|[[m1 p] v] ops IH]; intros h o Ho Hn; [done|].
  simpl in *. apply not_elem_of_cons in Hn as [Hne Hn].
  rewrite (IH _ _ (setPathsCache_lookup guidFor this m1 p v h o Ho) Hn).
  rewrite (get_after_set guidFor _ _ _ _ _ _ _ _ Ho).
  rewrite (getPathsCache_eq guidFor _ _ _ _ _ Ho). simpl. f_equal.
  rewrite decide_False; [done|]. intros [Hg ->]. apply Hne.
  unfold cache_key. simpl. by rewrite Hg.
Qed.



(** ** States off the chain *)

Lemma ancestry_ext (h h' : heap) n l :
  ancestry h n l ->
  (forall x o, x ∈ l -> h !! x = Some o ->
     exists o', h' !! x = Some o' /\ parentState o' = parentState o) ->
  ancestry h' n l.
Proof.
  induction 1 as [n o Ho Hp|n o p l Ho Hp Hl IH]; intros Hext.
  - destruct (Hext n o ltac:(by left) Ho) as (o' & Ho' & Hp').
    apply (ancestry_root h' n o' Ho'). congruence.
  - destruct (Hext n o ltac:(by left) Ho) as (o' & Ho' & Hp').
    apply (ancestry_parent h' n o' p l Ho'); [congruence|].
    apply IH. intros x ox Hx. apply Hext. by right.
Qed.

Lemma resolve_ext (h h' : heap) nm l :
  (forall x, x ∈ l -> entry h' nm x = entry h nm x) ->
  forall path, resolve h' nm l path = resolve h nm l path.
Proof.
  induction l as [|x l IH]; intros Hext path; [done|]. simpl.
  destruct (truthy path); [done|].
  rewrite Hext by (by left). apply IH. intros y Hy. apply Hext. by right.
Qed.

(** X15: lookupEventTransition looks at the chain of the state and at
    nothing else.  Two stores in which the states of the chain have the
    same parents and the same entries for the event give the same result:
    what descendants, siblings or unrelated states declare does not
    count. *)
Theorem lookup_ignores_states_off_the_chain (h h' : heap) (n : ref)
  (chain : list ref) (nm : string) (fuel : nat) :
  ancestry h n chain -> List.length chain <= fuel ->
  (forall x o, x ∈ chain -> h !! x = Some o ->
     exists o', h' !! x = Some o'
                /\ parentState o' = parentState o
                /\ eventTransitions o' !! nm = eventTransitions o !! nm) ->
  lookupEventTransition fuel h' n nm = lookupEventTransition fuel h n nm.
Proof.
  intros Ha Hf Hext. unfold lookupEventTransition.
  assert (ancestry h' n chain) as Ha'.
  { apply (ancestry_ext h); [done|]. intros x o Hx Ho.
    destruct (Hext x o Hx Ho) as (o' & Ho' & Hp & _). eauto. }
  rewrite (lookup_loop_chain h nm n chain Ha) by done.
  rewrite (lookup_loop_chain h' nm n chain Ha') by done.
  f_equal. apply resolve_ext. intros x Hx.
  pose proof (ancestry_exists h n chain Ha) as Hex.
  destruct (proj1 (Forall_forall _ _) Hex x Hx) as [o Ho].
  destruct (Hext x o Hx Ho) as (o' & Ho' & _ & He).
  unfold entry, dict_get. rewrite Ho, Ho'. simpl. by rewrite He.
Qed.

Lemma lookup_ignores_states_off_the_chain_witness :
  lookupEventTransition 3 (register 0 "go" (VStr "y") nested_tree) 1 "go"
  = lookupEventTransition 3 nested_tree 1 "go".
Proof.
  apply (lookup_ignores_states_off_the_chain nested_tree
           (register 0 "go" (VStr "y") nested_tree) 1 [1; 2; 3] "go" 3).
  - apply (ancestry_suffix nested_tree 0 _ nested_tree_chain [0] 1 [2; 3]).
    reflexivity.
  - simpl. lia.
  - intros x o Hx Ho. exists o. unfold register.
    rewrite list_lookup_alter_ne; [done|].
    intros <-. repeat (apply elem_of_cons in Hx as [Hx|Hx]; [discriminate Hx|]).
    by apply elem_of_nil in Hx.
Defined.

(** ** The path of an adopted instance *)

Lemma name_and_parent_alter (h : heap) f r x :
  (forall o, name (f o) = name o /\ parentState (f o) = parentState o) ->
  name_and_parent (alter f r h) x = name_and_parent h x.
Proof.
  intros Hf. unfold name_and_parent. destruct (decide (r = x)) as [->|Hne].
  - rewrite list_lookup_alter_eq. destruct (h !! x) as [o|]; simpl; [|done].
    by destruct (Hf o) as [-> ->].
  - by rewrite list_lookup_alter_ne.
Qed.

Lemma name_and_parent_adopted (h : heap) this sts nm r x :
  x < List.length h ->
  name_and_parent (attach this sts nm r (adopt this nm r h)).2 x
  = if decide (r = x) then Some (Some nm, Some this)
    else name_and_parent h x.
Proof.
  intros Hx. unfold attach, adopt. simpl.
  rewrite name_and_parent_alter by done.
  unfold name_and_parent. destruct (decide (r = x)) as [->|Hne].
  - rewrite !list_lookup_alter_eq.
    by destruct (lookup_lt_is_Some_2 h x Hx) as [o ->].
  - by rewrite !list_lookup_alter_ne.
Qed.

Lemma scan_step_name_and_parent this k v sts (h : heap) x :
  State_detect v = false -> x < List.length h ->
  name_and_parent (scan_step setupChild this (sts, h) (k, v)).2 x
  = match v with
    | VState r =>
        if decide (k <> "constructor" /\ r = x)
        then Some (Some k, Some this)
        else name_and_parent h x
    | _ => name_and_parent h x
    end
  /\ List.length (scan_step setupChild this (sts, h) (k, v)).2 = List.length h.
Proof.
  intros Hd Hx. unfold scan_step.
  destruct (String.eqb_spec k "constructor") as [->|Hk].
  { split; [|done]. destruct v; try done;
      try (by rewrite decide_False by tauto). }
  destruct (truthy v) eqn:Hv; [|by destruct v].
  set (h1 := if truthy (transitionTarget h v)
             then register this k (transitionTarget h v) h else h).
  assert (name_and_parent h1 x = name_and_parent h x
          /\ List.length h1 = List.length h) as [Hn1 Hl1].
  { unfold h1. destruct (truthy (transitionTarget h v)); [|done].
    unfold register. by rewrite name_and_parent_alter, length_alter. }
  clearbody h1. rewrite <-Hn1, <-Hl1.
  destruct v as [| | | | | | | | | | |r|s d]; try done;
    try (by rewrite setupChild_malformed).
  rewrite setupChild_State.
  pose proof (name_and_parent_adopted h1 this sts k r x ltac:(lia)) as Hna.
  pose proof (attach_length this sts k r (adopt this k r h1)) as Hal.
  rewrite adopt_length in Hal.
  destruct (attach this sts k r (adopt this k r h1)) as [[res sts'] h2].
  simpl in *. rewrite Hna, Hal. split; [|done].
  destruct (decide (r = x)) as [->|Hne].
  - by rewrite decide_True.
  - by rewrite decide_False by tauto.
Qed.

Lemma scan_name_and_parent_kept this decl x :
  Forall (fun kv => State_detect kv.2 = false) decl ->
  (forall k, (k, VState x) ∈ decl -> k = "constructor") ->
  forall sts (h : heap),
    x < List.length h ->
    name_and_parent (scan this decl (sts, h)).2 x = name_and_parent h x.
Proof.
  induction 1 as [|[k v] decl Hv Hd IH]; intros Hno sts h Hx; [done|].
  rewrite scan_cons.
  destruct (scan_step_name_and_parent this k v sts h x Hv Hx) as [Hn Hl].
  destruct (scan_step setupChild this (sts, h) (k, v)) as [sts1 h1].
  simpl in *. rewrite IH; [|intros k' Hk'; apply Hno; by right|lia].
  rewrite Hn. destruct v; try done.
  destruct (decide _) as [[Hk ->]|]; [|done].
  destruct Hk. apply Hno. by left.
Qed.

Lemma scan_name_and_parent_adopted this decl k r :
  Forall (fun kv => State_detect kv.2 = false) decl ->
  k <> "constructor" ->
  (forall k', (k', VState r) ∈ decl -> k' = "constructor" \/ k' = k) ->
  forall sts (h : heap),
    r < List.length h ->
    name_and_parent h r = Some (Some k, Some this) \/ (k, VState r) ∈ decl ->
    name_and_parent (scan this decl (sts, h)).2 r = Some (Some k, Some this).
Proof.
  intros Hd Hk. induction Hd as [|[k' v] decl Hv Hd IH];
    intros Hone sts h Hr Hcase.
  { destruct Hcase as [?|Hin]; [done|by apply elem_of_nil in Hin]. }
  rewrite scan_cons.
  destruct (scan_step_name_and_parent this k' v sts h r Hv Hr) as [Hn Hl].
  destruct (scan_step setupChild this (sts, h) (k', v)) as [sts1 h1].
  simpl in *.
  apply IH; [intros k'' Hk''; apply Hone; by right|lia|].
  rewrite Hn. clear Hn.
  destruct Hcase as [Hat|Hin].
  - left. destruct v as [| | | | | | | | | | |r'|]; try done.
    destruct (decide _) as [[Hk' ->]|]; [|done].
    destruct (Hone k' ltac:(by left)) as [?| ->]; done.
  - apply elem_of_cons in Hin as [[= <- <-]|Hin]; [|by right].
    left. by rewrite decide_True.
Qed.


